(** * bufferToggle: a shallow embedding of
      src/internal/operators/bufferToggle.ts

    The operator is written in continuation style over three push sources
    (openings, one closing notifier per opening, and the main source).  The
    embedding threads one explicit [State] through the callbacks that the
    TypeScript closures share: the [buffers] array, the arrays it refers to,
    the downstream [subscriber] and the subscriptions created on the way.

    Execution is single-threaded: a callback runs to its end before the next
    notification is handled, except for a closing notifier that delivers
    inside its own [subscribe], whose notifications are handled in the middle
    of the openings callback (line 83).  The consumer is passive: it records
    what it is given and may unsubscribe between two notifications. *)

From stdpp Require Import base list sorting.

(** A push notification: [next(a)], [error(e)] or [complete()]. *)
Inductive notification (E A : Type) : Type :=
  | Next (a : A)
  | Error (e : E)
  | Complete.
Arguments Next {E A} a.
Arguments Error {E A} e.
Arguments Complete {E A}.

(** Modelled from the spec: the adapter [from] and [subscribe] are not part
    of the sources at hand.  By the push-source contract a source calls its
    consumer from inside [subscribe] or later; a [Source] lists what it
    delivers inside [subscribe], in order, and whatever it delivers later
    reaches the operator as an [event]. *)
Definition Source (E A : Type) : Type := list (notification E A).

(** Modelled from the spec: [arrRemove] of util/arrRemove, which is not part
    of the sources at hand.  It removes the first occurrence of [item] from
    the array and leaves the array alone when [item] is absent; it returns
    nothing. *)
Fixpoint arrRemove (arr : list nat) (item : nat) : list nat :=
  match arr with
  | [] => []
  | x :: rest => if decide (x = item) then rest else x :: arrRemove rest item
  end.

(** A closing selector used in the concrete runs at the end: by opening
    value, a notifier that stays silent inside [subscribe] (0), [of(0)] (1),
    [EMPTY] (2), one that delivers a value and stays open (3), and one that
    fails (any other value). *)
Definition sampleSelector (openValue : nat) : Source nat nat :=
  match openValue with
  | 0 => []
  | 1 => [Next 0; Complete]
  | 2 => [Complete]
  | 3 => [Next 0]
  | _ => [Error 7]
  end.

Section BufferToggle.
Context {T O X E : Type}.

(** ** Data *)

(** Modelled from the spec: [Subscription] (the cancellation token) is not
    part of the sources at hand.  A token has a [closed] flag and a set of
    children.

    A [Buffer] is what one call of the openings [next] callback allocates
    (lines 67-83): the array [buffer], here [values]; the composite
    [closingSubscription], with [tokClosed] its [closed] flag and [tokChild]
    telling whether the closing subscriber, its only possible child, has been
    added; and the [OperatorSubscriber] handed to the closing notifier, with
    [innerClosed] its [closed] flag. *)
Record Buffer : Type := mkBuffer {
  values : list T;
  tokClosed : bool;
  tokChild : bool;
  innerClosed : bool
}.

(** Modelled from the spec: [Subscriber] and [OperatorSubscriber] are not
    part of the sources at hand.  A subscriber ignores every notification
    once it is stopped, and it is stopped by its terminal notification and
    by [unsubscribe].

    A [State] holds the variables shared by the closures of one
    subscription.  Arrays are JavaScript objects: [heap] holds every
    allocated [Buffer], its index is the identity of the array, and
    [buffers] (line 60) and [received] hold such references, not copies.
    [isStopped] is the stopped flag of the downstream [subscriber] and
    [received] lists the calls that got through to the consumer.
    [openingsSub] and [sourceSub] are the closed flags of the operator
    subscribers of lines 64 and 91 ([None] until line 91 has run). *)
Record State : Type := mkState {
  heap : list Buffer;
  buffers : list nat;
  isStopped : bool;
  received : list (notification E nat);
  openingsSub : bool;
  sourceSub : option bool
}.

Definition set_heap (h : list Buffer) (st : State) : State :=
  mkState h (buffers st) (isStopped st) (received st) (openingsSub st) (sourceSub st).

Definition set_buffers (bs : list nat) (st : State) : State :=
  mkState (heap st) bs (isStopped st) (received st) (openingsSub st) (sourceSub st).

Definition set_openingsSub (b : bool) (st : State) : State :=
  mkState (heap st) (buffers st) (isStopped st) (received st) b (sourceSub st).

Definition set_sourceSub (b : option bool) (st : State) : State :=
  mkState (heap st) (buffers st) (isStopped st) (received st) (openingsSub st) b.

(** The consumer is called with [n]. *)
Definition deliver (n : notification E nat) (st : State) : State :=
  mkState (heap st) (buffers st) (isStopped st) (received st ++ [n])
          (openingsSub st) (sourceSub st).

(** ** The downstream subscriber *)

(** The closing subscriber of one buffer is closed. *)
Definition close_inner (b : Buffer) : Buffer :=
  mkBuffer (values b) (tokClosed b) (tokChild b) true.

(** Modelled from the spec: [Subscriber.unsubscribe], not part of the
    sources at hand; closing a token closes its children.  This is
    [subscriber.unsubscribe()].  Every [OperatorSubscriber] of the operator
    is constructed with [subscriber] as its destination and is thereby a
    child of it (the comment of line 82), so all of them are closed.  The
    [closingSubscription]s are not children of [subscriber]. *)
Definition unsubscribe (st : State) : State :=
  mkState (close_inner <$> heap st) (buffers st) true (received st)
          true ((fun _ => true) <$> sourceSub st).

(** Modelled from the spec: [Subscriber.next], not part of the sources at
    hand.  This is [subscriber.next(buffer)] for the array with identity
    [r]. *)
Definition subscriber_next (r : nat) (st : State) : State :=
  if isStopped st then st else deliver (Next r) st.

(** Modelled from the spec: [Subscriber.error], not part of the sources at
    hand.  This is [subscriber.error(err)]: the error is delivered unless
    the subscriber is stopped, then the subscriber tears itself down. *)
Definition subscriber_error (e : E) (st : State) : State :=
  if isStopped st then st else unsubscribe (deliver (Error e) st).

(** Modelled from the spec: [Subscriber.complete], not part of the sources
    at hand.  This is [subscriber.complete()]. *)
Definition subscriber_complete (st : State) : State :=
  if isStopped st then st else unsubscribe (deliver Complete st).

(** ** The closing notifier of one buffer *)

(** Modelled from the spec: [Subscription.unsubscribe], not part of the
    sources at hand.  This is [closingSubscription.unsubscribe()] (line 79):
    idempotent; it closes the token and the child registered at that
    moment, if any. *)
Definition closingSubscription_unsubscribe (b : Buffer) : Buffer :=
  if tokClosed b then b
  else mkBuffer (values b) true (tokChild b) (innerClosed b || tokChild b).

(** Modelled from the spec: [Subscription.add], not part of the sources at
    hand.  This is [closingSubscription.add(...)] of line 83, which runs
    when the [subscribe] of the closing notifier has returned: a child added
    to a closed token is closed at once, a closed child is not retained. *)
Definition closingSubscription_add (b : Buffer) : Buffer :=
  if tokClosed b then close_inner b
  else if innerClosed b then b
  else mkBuffer (values b) (tokClosed b) true (innerClosed b).

(** The closure [emit] of lines 76-80, for the buffer with identity [k]. *)
Definition emit (k : nat) (st : State) : State :=
  let st1 := set_buffers (arrRemove (buffers st) k) st in
  let st2 := subscriber_next k st1 in
  set_heap (alter closingSubscription_unsubscribe k (heap st2)) st2.

(** [new OperatorSubscriber(subscriber, emit, undefined, emit)] of line 83
    receiving one notification from the closing notifier of buffer [k].
    The wrapper is as modelled for [State]: a closed subscriber drops the
    notification; without an error override the error goes to
    [subscriber]; after [error] and [complete] the operator subscriber
    unsubscribes itself. *)
Definition closing_notify (k : nat) (n : notification E X) (st : State) : State :=
  match heap st !! k with
  | Some b =>
      if innerClosed b then st
      else match n with
           | Next _ => emit k st
           | Error e =>
               let st1 := subscriber_error e st in
               set_heap (alter close_inner k (heap st1)) st1
           | Complete =>
               let st1 := emit k st in
               set_heap (alter close_inner k (heap st1)) st1
           end
  | None => st
  end.

(** ** The openings notifier *)

Variable closingSelector : O -> Source E X.

(** The [next] callback of lines 66-84: allocate the array and push it on
    [buffers], create the token, construct the closing subscriber on
    [subscriber], subscribe it to the closing notifier, which may deliver at
    once, and only then add it to the token. *)
Definition openings_next (openValue : O) (st : State) : State :=
  let k := length (heap st) in
  let fresh := mkBuffer [] false false (isStopped st) in
  let st1 := set_buffers (buffers st ++ [k]) (set_heap (heap st ++ [fresh]) st) in
  let st2 := foldl (fun s n => closing_notify k n s) st1 (closingSelector openValue) in
  set_heap (alter closingSubscription_add k (heap st2)) st2.

(** [new OperatorSubscriber(subscriber, (openValue) => ..., undefined, noop)]
    receiving one notification from the openings notifier. *)
Definition openings_notify (n : notification E O) (st : State) : State :=
  if openingsSub st then st
  else match n with
       | Next openValue => openings_next openValue st
       | Error e => set_openingsSub true (subscriber_error e st)
       | Complete => set_openingsSub true st
       end.

(** ** The main source *)

(** [buffer.push(value)]. *)
Definition push (value : T) (b : Buffer) : Buffer :=
  mkBuffer (values b ++ [value]) (tokClosed b) (tokChild b) (innerClosed b).

(** [for (const buffer of buffers) buffer.push(value)] (lines 95-97). *)
Definition push_all (value : T) (st : State) : State :=
  set_heap (foldl (fun h r => alter (push value) r h) (heap st) (buffers st)) st.

(** [while (buffers.length > 0) subscriber.next(buffers.shift()!)]
    (lines 102-104), by recursion on the array that is being emptied. *)
Fixpoint shift_all (bs : list nat) (st : State) : State :=
  match bs with
  | [] => st
  | r :: rest => shift_all rest (subscriber_next r (set_buffers rest st))
  end.

(** The subscriber of the main source unsubscribes itself. *)
Definition close_source (st : State) : State :=
  set_sourceSub ((fun _ => true) <$> sourceSub st) st.

(** [new OperatorSubscriber(subscriber, (value) => ..., undefined, () => ...)]
    receiving one notification from the main source. *)
Definition source_notify (n : notification E T) (st : State) : State :=
  match sourceSub st with
  | Some false =>
      match n with
      | Next value => push_all value st
      | Error e => close_source (subscriber_error e st)
      | Complete =>
          close_source (subscriber_complete (shift_all (buffers st) st))
      end
  | _ => st
  end.

(** ** The operator *)

(** The state when the callback given to [operate] starts (line 60), with
    the openings subscriber of line 64 constructed on a live [subscriber]. *)
Definition initial : State := mkState [] [] false [] false None.

(** Line 91: the subscriber for the main source is constructed on
    [subscriber]; on a closed destination it is closed from the start. *)
Definition subscribe_source (st : State) : State :=
  set_sourceSub (Some (isStopped st)) st.

(** Lines 63-88: [from(openings).subscribe(...)], with what [openings]
    delivers before that call returns. *)
Definition subscribing (openings : Source E O) : State :=
  foldl (fun s n => openings_notify n s) initial openings.

(** The callback given to [operate] (lines 59-109): subscribe to
    [openings], then to [source], which may deliver synchronously too. *)
Definition bufferToggle (openings : Source E O) (source : Source E T) : State :=
  foldl (fun s n => source_notify n s) (subscribe_source (subscribing openings)) source.

(** What can happen after [subscribe] has returned: a notification from one
    of the sources, or the consumer unsubscribing. *)
Inductive event : Type :=
  | EvOpenings (n : notification E O)
  | EvSource (n : notification E T)
  | EvClosing (k : nat) (n : notification E X)
  | EvUnsubscribe.

Definition step (st : State) (ev : event) : State :=
  match ev with
  | EvOpenings n => openings_notify n st
  | EvSource n => source_notify n st
  | EvClosing k n => closing_notify k n st
  | EvUnsubscribe => unsubscribe st
  end.

Definition run (st : State) (evs : list event) : State := foldl step st evs.

(** [reaches st st']: the operator can get from [st] to [st'].  Besides
    the events, line 90 may run once, as long as it has not run yet. *)
Inductive reaches (st : State) : State -> Prop :=
  | reaches_refl : reaches st st
  | reaches_step st' ev : reaches st st' -> reaches st (step st' ev)
  | reaches_subscribe st' :
      reaches st st' -> sourceSub st' = None -> reaches st (subscribe_source st').

Definition reachable (st : State) : Prop := reaches initial st.

(** ** Invariants *)

(** A closing subscriber that is still open is registered under its token,
    and that token is open: closing the token closes the subscriber. *)
Definition token_ok (b : Buffer) : Prop :=
  innerClosed b = false -> tokClosed b = false /\ tokChild b = true.

Definition is_next {A : Type} (n : notification E A) : bool :=
  match n with Next _ => true | _ => false end.

(** The consumer has seen values only, or values and then one terminal
    notification; the latter only when [subscriber] is stopped. *)
Definition received_ok (st : State) : Prop :=
  exists rs : list nat,
    received st = Next <$> rs \/
    (isStopped st = true /\
     exists t, is_next t = false /\ received st = (Next <$> rs) ++ [t]).

Definition allocated (h : list Buffer) (n : notification E nat) : Prop :=
  match n with Next r => r < length h | _ => True end.

(** [pending] is the buffer whose closing notifier is being subscribed to
    (line 83 is still running), if any: its subscriber is not yet
    registered under its token. *)
Record Inv (pending : option nat) (st : State) : Prop := mkInv {
  inv_sorted : StronglySorted lt (buffers st);
  inv_bound : Forall (fun r => r < length (heap st)) (buffers st);
  inv_stopped :
    isStopped st = true ->
    openingsSub st = true /\ sourceSub st <> Some false /\
    Forall (fun b => innerClosed b = true) (heap st);
  inv_tokens :
    forall i b, heap st !! i = Some b -> Some i <> pending -> token_ok b;
  inv_received : received_ok st;
  inv_refs : Forall (allocated (heap st)) (received st)
}.

(** ** Observations used in the statements *)

(** The contents of every array allocated so far, by identity. *)
Definition heap_values (st : State) : list (list T) := values <$> heap st.

(** [quiet st st']: going from [st] to [st'] the consumer was not called,
    and [subscriber] is stopped. *)
Definition quiet (st st' : State) : Prop :=
  isStopped st' = true /\ received st' = received st.

(** Events that hand the operator an opening value. *)
Definition is_opening (ev : event) : bool :=
  match ev with EvOpenings (Next _) => true | _ => false end.

(** Events that come from the openings notifier. *)
Definition from_openings (ev : event) : bool :=
  match ev with EvOpenings _ => true | _ => false end.

(** The error, if any, that event [ev] makes a live subscriber pass on.
    This includes the closing notifier that fails inside its own
    [subscribe], while its opening value is being handled. *)
Definition live_error (st : State) (ev : event) : option E :=
  match ev with
  | EvSource (Error e) =>
      match sourceSub st with Some false => Some e | _ => None end
  | EvOpenings (Error e) => if openingsSub st then None else Some e
  | EvOpenings (Next openValue) =>
      if openingsSub st then None
      else match closingSelector openValue with
           | Error e :: _ => Some e
           | _ => None
           end
  | EvClosing k (Error e) =>
      match heap st !! k with
      | Some b => if innerClosed b then None else Some e
      | None => None
      end
  | _ => None
  end.

(** The arrays handed to the consumer so far, in the order of the calls. *)
Definition emitted (st : State) : list nat :=
  omap (fun n => match n with Next r => Some r | _ => None end) (received st).

(** The closing subscriber of array [r], if there is one, is closed. *)
Definition closed_at (h : list Buffer) (r : nat) : Prop :=
  forall b, h !! r = Some b -> innerClosed b = true.

(** An array that was handed to the consumer was handed over once, is no
    longer in [buffers], and its closing notifier is no longer listened to. *)
Record Flushed (st : State) : Prop := mkFlushed {
  flushed_once : NoDup (emitted st);
  flushed_gone : forall r, r ∈ emitted st -> r ∉ buffers st;
  flushed_closed : forall r, r ∈ emitted st -> closed_at (heap st) r
}.

(** Events that hand the operator a value of the main source. *)
Definition is_value (ev : event) : bool :=
  match ev with EvSource (Next _) => true | _ => false end.

(** No array that was handed to the consumer is in [buffers]. *)
Definition gone (st : State) : Prop :=
  forall r, r ∈ emitted st -> r ∉ buffers st.

(** While the operator runs, every array allocated so far is in [buffers]
    or was handed to the consumer. *)
Definition covered (st : State) : Prop :=
  isStopped st = false ->
  forall r, r < length (heap st) -> r ∈ buffers st \/ r ∈ emitted st.

(** The closing subscriber of array [k] exists and is open. *)
Definition live_at (h : list Buffer) (k : nat) : Prop :=
  exists b, h !! k = Some b /\ innerClosed b = false.

(** The arrays in [buffers] are those whose closing notifier is listened
    to.  The array [pending], whose closing notifier is being subscribed
    to, is left out; for it, being in [buffers] means that [emit] has not
    run yet. *)
Record Tracked (pending : option nat) (st : State) : Prop := mkTracked {
  tracked_live :
    forall k, Some k <> pending -> live_at (heap st) k -> k ∈ buffers st;
  tracked_member :
    isStopped st = false ->
    forall k, Some k <> pending -> k ∈ buffers st -> live_at (heap st) k;
  tracked_pending :
    forall k b, pending = Some k -> heap st !! k = Some b ->
      (k ∈ buffers st ->
       tokClosed b = false /\ (isStopped st = false -> innerClosed b = false)) /\
      (k ∉ buffers st -> tokClosed b = true \/ innerClosed b = true)
}.

(** ** [arrRemove] on the live-buffer array *)

Lemma arrRemove_Forall (P : nat -> Prop) bs k :
  Forall P bs -> Forall P (arrRemove bs k).
Proof.
  induction 1 as [|x bs Hx Hbs IH]; simpl; [constructor|].
  case_decide; [done|]. by constructor.
Qed.

Lemma arrRemove_sorted bs k :
  StronglySorted lt bs -> StronglySorted lt (arrRemove bs k).
Proof.
  induction 1 as [|x bs Hbs IH Hx]; simpl; [constructor|].
  case_decide; [done|].
  constructor; [done|]. by apply arrRemove_Forall.
Qed.

Lemma arrRemove_absent bs k : k ∉ bs -> arrRemove bs k = bs.
Proof.
  induction bs as [|x bs IH]; simpl; [done|].
  rewrite not_elem_of_cons. intros [Hne Hnotin].
  case_decide; [congruence|]. by rewrite IH.
Qed.

Lemma arrRemove_snoc bs k : k ∉ bs -> arrRemove (bs ++ [k]) k = bs.
Proof.
  induction bs as [|x bs IH]; simpl.
  - intros _. by case_decide.
  - rewrite not_elem_of_cons. intros [Hne Hnotin].
    case_decide; [congruence|]. by rewrite IH.
Qed.

Lemma elem_of_arrRemove bs k r :
  NoDup bs -> r ∈ arrRemove bs k <-> r ∈ bs /\ r <> k.
Proof.
  induction 1 as [|x bs Hx Hnd IH]; simpl.
  - rewrite elem_of_nil. tauto.
  - case_decide as Hxk.
    + subst x. rewrite elem_of_cons. split.
      * intros Hr. split; [by right|]. intros ->. done.
      * intros [[?|?] ?]; [congruence|done].
    + rewrite !elem_of_cons, IH. split.
      * intros [->|[? ?]]; [split; [by left|done]|split; [by right|done]].
      * intros [[->|?] ?]; [by left|by right].
Qed.

Lemma sorted_lt_NoDup (bs : list nat) : StronglySorted lt bs -> NoDup bs.
Proof.
  induction 1 as [|x bs Hbs IH Hx]; constructor; [|done].
  intros Hin. rewrite Forall_forall in Hx. specialize (Hx _ Hin). lia.
Qed.

(** ** The invariant is kept by every callback *)

Lemma received_ok_live st :
  received_ok st -> isStopped st = false ->
  exists rs : list nat, received st = Next <$> rs.
Proof.
  intros [rs [Hrs|[Hstop _]]] Hlive; [by exists rs|congruence].
Qed.

Lemma Inv_subscriber_next p r st :
  r < length (heap st) -> Inv p st -> Inv p (subscriber_next r st).
Proof.
  intros Hr HI. unfold subscriber_next.
  destruct (isStopped st) eqn:Hstop; [done|].
  destruct HI as [? ? ? ? Hrec Hrefs]. constructor; simpl; try done.
  - destruct (received_ok_live st Hrec Hstop) as [rs Hrs].
    exists (rs ++ [r]). left. simpl. by rewrite Hrs, fmap_app.
  - apply Forall_app. split; [done|]. by repeat constructor.
Qed.

Lemma Forall_allocated_fmap (f : Buffer -> Buffer) h l :
  Forall (allocated h) l -> Forall (allocated (f <$> h)) l.
Proof.
  intros H. eapply Forall_impl; [exact H|].
  intros [r| |]; simpl; [|done..]. by rewrite length_fmap.
Qed.

Lemma Forall_allocated_alter (f : Buffer -> Buffer) k h l :
  Forall (allocated h) l -> Forall (allocated (alter f k h)) l.
Proof.
  intros H. eapply Forall_impl; [exact H|].
  intros [r| |]; simpl; [|done..]. by rewrite length_alter.
Qed.

Lemma token_ok_close_inner b : token_ok (close_inner b).
Proof. unfold token_ok. simpl. done. Qed.

Lemma Inv_unsubscribe p st : Inv p st -> Inv p (unsubscribe st).
Proof.
  intros [? Hb ? ? Hrec ?]. constructor; simpl; try done.
  - by rewrite length_fmap.
  - intros _. split; [done|]. split; [by destruct (sourceSub st)|].
    rewrite Forall_fmap. by apply Forall_true.
  - intros i b. rewrite list_lookup_fmap.
    destruct (heap st !! i); simpl; [|done].
    intros [= <-] _. apply token_ok_close_inner.
  - destruct Hrec as [rs [Hrs|[_ Hrs]]]; exists rs; [by left|by right].
  - by apply Forall_allocated_fmap.
Qed.

Lemma Inv_terminate p t st :
  is_next t = false -> isStopped st = false ->
  Inv p st -> Inv p (unsubscribe (deliver t st)).
Proof.
  intros Ht Hlive [? Hb ? ? Hrec ?]. constructor; simpl; try done.
  - by rewrite length_fmap.
  - intros _. split; [done|]. split; [by destruct (sourceSub st)|].
    rewrite Forall_fmap. by apply Forall_true.
  - intros i b. rewrite list_lookup_fmap.
    destruct (heap st !! i); simpl; [|done].
    intros [= <-] _. apply token_ok_close_inner.
  - destruct (received_ok_live st Hrec Hlive) as [rs Hrs].
    exists rs. right. simpl. split; [done|]. exists t. by rewrite Hrs.
  - apply Forall_allocated_fmap, Forall_app. split; [done|].
    repeat constructor. by destruct t.
Qed.

Lemma Inv_subscriber_error p e st : Inv p st -> Inv p (subscriber_error e st).
Proof.
  intros HI. unfold subscriber_error.
  destruct (isStopped st) eqn:Hstop; [done|]. by apply Inv_terminate.
Qed.

Lemma Inv_subscriber_complete p st : Inv p st -> Inv p (subscriber_complete st).
Proof.
  intros HI. unfold subscriber_complete.
  destruct (isStopped st) eqn:Hstop; [done|]. by apply Inv_terminate.
Qed.

Lemma Inv_set_buffers p bs st :
  StronglySorted lt bs -> Forall (fun r => r < length (heap st)) bs ->
  Inv p st -> Inv p (set_buffers bs st).
Proof. intros ? ? [? ? ? ? ? ?]. by constructor. Qed.

Lemma Inv_alter p f k st :
  (forall b, innerClosed b = true -> innerClosed (f b) = true) ->
  (Some k <> p -> forall b, heap st !! k = Some b -> token_ok b -> token_ok (f b)) ->
  Inv p st -> Inv p (set_heap (alter f k (heap st)) st).
Proof.
  intros Hmono Hf [? ? Hstop Htok ? ?]. constructor; simpl; try done.
  - by rewrite length_alter.
  - intros Hs. destruct (Hstop Hs) as (? & ? & Hall).
    split; [done|]. split; [done|].
    apply Forall_alter; [done|]. intros b _. apply Hmono.
  - intros i b Hb Hp. destruct (decide (k = i)) as [->|Hne].
    + rewrite list_lookup_alter_eq in Hb.
      destruct (heap st !! i) as [b0|] eqn:Hb0; simplify_eq/=.
      apply Hf; [done..|]. by apply (Htok i).
    + rewrite list_lookup_alter_ne in Hb by done. by apply (Htok i).
  - by apply Forall_allocated_alter.
Qed.

Lemma token_ok_unsubscribe b :
  token_ok b -> token_ok (closingSubscription_unsubscribe b).
Proof.
  unfold token_ok, closingSubscription_unsubscribe.
  destruct b as [vs [] [] []]; simpl; intuition congruence.
Qed.

Lemma token_ok_add b : token_ok (closingSubscription_add b).
Proof.
  unfold token_ok, closingSubscription_add.
  destruct b as [vs [] [] []]; simpl; intuition congruence.
Qed.

Lemma innerClosed_unsubscribe b :
  innerClosed b = true -> innerClosed (closingSubscription_unsubscribe b) = true.
Proof.
  unfold closingSubscription_unsubscribe. destruct b as [vs [] [] []]; simpl; done.
Qed.

Lemma innerClosed_add b :
  innerClosed b = true -> innerClosed (closingSubscription_add b) = true.
Proof.
  unfold closingSubscription_add. destruct b as [vs [] [] []]; simpl; done.
Qed.

Lemma heap_subscriber_next r st : heap (subscriber_next r st) = heap st.
Proof. unfold subscriber_next. by destruct (isStopped st). Qed.

Lemma buffers_subscriber_next r st : buffers (subscriber_next r st) = buffers st.
Proof. unfold subscriber_next. by destruct (isStopped st). Qed.

Lemma Inv_emit p k st :
  k < length (heap st) -> Inv p st -> Inv p (emit k st).
Proof.
  intros Hk HI. unfold emit.
  apply Inv_alter.
  - apply innerClosed_unsubscribe.
  - intros _ b _. apply token_ok_unsubscribe.
  - apply Inv_subscriber_next; [done|].
    apply Inv_set_buffers; [| |done].
    + apply arrRemove_sorted, HI.
    + apply arrRemove_Forall, HI.
Qed.

Lemma Inv_closing_notify p k n st :
  Inv p st -> Inv p (closing_notify k n st).
Proof.
  intros HI. unfold closing_notify.
  destruct (heap st !! k) as [b|] eqn:Hb; [|done].
  apply lookup_lt_Some in Hb.
  destruct (innerClosed b); [done|].
  destruct n as [x|e|].
  - by apply Inv_emit.
  - apply Inv_alter; [done| |by apply Inv_subscriber_error].
    intros _ b' _ _. apply token_ok_close_inner.
  - apply Inv_alter; [done| |by apply Inv_emit].
    intros _ b' _ _. apply token_ok_close_inner.
Qed.

Lemma Inv_closing_sync p k ns st :
  Inv p st -> Inv p (foldl (fun s n => closing_notify k n s) st ns).
Proof.
  revert st. induction ns as [|n ns IH]; intros st HI; simpl; [done|].
  by apply IH, Inv_closing_notify.
Qed.

Lemma Inv_add k st :
  Inv (Some k) st ->
  Inv None (set_heap (alter closingSubscription_add k (heap st)) st).
Proof.
  intros [? ? Hstop Htok ? ?]. constructor; simpl; try done.
  - by rewrite length_alter.
  - intros Hs. destruct (Hstop Hs) as (? & ? & Hall).
    split; [done|]. split; [done|].
    apply Forall_alter; [done|]. intros b _. apply innerClosed_add.
  - intros i b Hb _. destruct (decide (k = i)) as [->|Hne].
    + rewrite list_lookup_alter_eq in Hb.
      destruct (heap st !! i) as [b0|] eqn:Hb0; simplify_eq/=.
      apply token_ok_add.
    + rewrite list_lookup_alter_ne in Hb by done.
      apply (Htok i); [done|]. congruence.
  - by apply Forall_allocated_alter.
Qed.

Lemma Inv_pushed st :
  Inv None st ->
  Inv (Some (length (heap st)))
      (set_buffers (buffers st ++ [length (heap st)])
         (set_heap (heap st ++ [mkBuffer [] false false (isStopped st)]) st)).
Proof.
  intros [Hsort Hbound Hstop Htok ? Hrefs]. constructor; simpl; try done.
  - apply StronglySorted_app_2; [|done|repeat constructor].
    intros x y Hx Hy. apply list_elem_of_singleton in Hy as ->.
    rewrite Forall_forall in Hbound. by apply Hbound.
  - rewrite length_app. simpl. apply Forall_app. split.
    + eapply Forall_impl; [exact Hbound|]. simpl. lia.
    + repeat constructor. lia.
  - intros Hs. destruct (Hstop Hs) as (? & ? & Hall).
    split; [done|]. split; [done|].
    apply Forall_app. split; [done|]. by repeat constructor.
  - intros i b Hb Hi. apply (Htok i); [|done].
    apply lookup_snoc_Some in Hb as [[_ Hb]|[-> _]]; [done|congruence].
  - eapply Forall_impl; [exact Hrefs|].
    intros [r| |]; simpl; [|done..]. rewrite length_app. lia.
Qed.

Lemma Inv_openings_next openValue st :
  Inv None st -> Inv None (openings_next openValue st).
Proof.
  intros HI. unfold openings_next.
  by apply Inv_add, Inv_closing_sync, Inv_pushed.
Qed.

Lemma Inv_set_openingsSub p st : Inv p st -> Inv p (set_openingsSub true st).
Proof.
  intros [? ? Hstop ? ? ?]. constructor; simpl; try done.
  intros Hs. by destruct (Hstop Hs) as (? & ? & ?).
Qed.

Lemma Inv_openings_notify n st :
  Inv None st -> Inv None (openings_notify n st).
Proof.
  intros HI. unfold openings_notify.
  destruct (openingsSub st); [done|].
  destruct n as [o|e|].
  - by apply Inv_openings_next.
  - by apply Inv_set_openingsSub, Inv_subscriber_error.
  - by apply Inv_set_openingsSub.
Qed.

Lemma token_ok_push value b : token_ok b -> token_ok (push value b).
Proof. done. Qed.

Lemma Inv_push_loop p value bs h st :
  Inv p (set_heap h st) ->
  Inv p (set_heap (foldl (fun h r => alter (push value) r h) h bs) st).
Proof.
  revert h. induction bs as [|r bs IH]; intros h HI; simpl; [done|].
  apply IH.
  apply (Inv_alter p (push value) r (set_heap h st)); [done| |done].
  intros _ b _. apply token_ok_push.
Qed.

Lemma set_heap_id st : set_heap (heap st) st = st.
Proof. by destruct st. Qed.

Lemma Inv_push_all p value st : Inv p st -> Inv p (push_all value st).
Proof.
  intros HI. unfold push_all. apply Inv_push_loop. by rewrite set_heap_id.
Qed.

Lemma heap_shift_all bs st : heap (shift_all bs st) = heap st.
Proof.
  revert st. induction bs as [|r bs IH]; intros st; simpl; [done|].
  by rewrite IH, heap_subscriber_next.
Qed.

Lemma Inv_shift_all p bs st :
  StronglySorted lt bs -> Forall (fun r => r < length (heap st)) bs ->
  Inv p st -> Inv p (shift_all bs st).
Proof.
  revert st. induction bs as [|r bs IH]; intros st Hsort Hbound HI; simpl; [done|].
  apply StronglySorted_cons in Hsort as [_ Hsort].
  apply Forall_cons in Hbound as [Hr Hbound].
  apply IH; [done|by rewrite heap_subscriber_next|].
  apply Inv_subscriber_next; [done|]. by apply Inv_set_buffers.
Qed.

Lemma Inv_close_source p st : Inv p st -> Inv p (close_source st).
Proof.
  intros [? ? Hstop ? ? ?]. constructor; simpl; try done.
  intros Hs. destruct (Hstop Hs) as (? & ? & ?).
  split; [done|]. split; [|done]. by destruct (sourceSub st).
Qed.

Lemma Inv_source_notify p n st : Inv p st -> Inv p (source_notify n st).
Proof.
  intros HI. unfold source_notify.
  destruct (sourceSub st) as [[]|]; [done| |done].
  destruct n as [v|e|].
  - by apply Inv_push_all.
  - by apply Inv_close_source, Inv_subscriber_error.
  - apply Inv_close_source, Inv_subscriber_complete, Inv_shift_all; [apply HI..|done].
Qed.

Lemma Inv_subscribe_source p st : Inv p st -> Inv p (subscribe_source st).
Proof.
  intros [? ? Hstop ? ? ?]. constructor; simpl; try done.
  intros Hs. destruct (Hstop Hs) as (? & ? & ?).
  split; [done|]. split; [|done]. rewrite Hs. done.
Qed.

Lemma Inv_step st ev : Inv None st -> Inv None (step st ev).
Proof.
  intros HI. destruct ev as [n|n|k n|]; simpl.
  - by apply Inv_openings_notify.
  - by apply Inv_source_notify.
  - by apply Inv_closing_notify.
  - by apply Inv_unsubscribe.
Qed.

Lemma Inv_initial : Inv None initial.
Proof.
  constructor; simpl; try done; try constructor.
  exists []. by left.
Qed.

Lemma Inv_reaches st st' : reaches st st' -> Inv None st -> Inv None st'.
Proof.
  induction 1 as [|st' ev _ IH|st' _ IH _]; intros HI; [done| |].
  - by apply Inv_step, IH.
  - by apply Inv_subscribe_source, IH.
Qed.

Lemma Inv_reachable st : reachable st -> Inv None st.
Proof. intros H. apply (Inv_reaches _ _ H), Inv_initial. Qed.

(** ** Reaching states *)

Lemma reaches_trans st1 st2 st3 :
  reaches st1 st2 -> reaches st2 st3 -> reaches st1 st3.
Proof.
  intros H12. induction 1 as [|st' ev _ IH|st' _ IH Hsub]; [done| |].
  - by apply reaches_step.
  - by apply reaches_subscribe.
Qed.

Lemma reaches_run st evs : reaches st (run st evs).
Proof.
  unfold run. induction evs as [|ev evs IH] using rev_ind; simpl.
  - apply reaches_refl.
  - rewrite foldl_snoc. by apply reaches_step.
Qed.

Lemma subscribing_run openings :
  subscribing openings = run initial (EvOpenings <$> openings).
Proof. unfold subscribing, run. by rewrite foldl_fmap. Qed.

Lemma sourceSub_closing_notify k n st :
  sourceSub st = None -> sourceSub (closing_notify k n st) = None.
Proof.
  intros Hs. unfold closing_notify, emit, subscriber_next, subscriber_error.
  destruct (heap st !! k) as [b|]; [|done].
  destruct (innerClosed b); [done|].
  destruct n; simpl; destruct (isStopped st); simpl; by rewrite ?Hs.
Qed.

Lemma sourceSub_openings_notify n st :
  sourceSub st = None -> sourceSub (openings_notify n st) = None.
Proof.
  intros Hs. unfold openings_notify.
  destruct (openingsSub st); [done|].
  destruct n as [o|e|]; simpl; [| |done].
  - unfold openings_next. simpl.
    set (st1 := set_buffers _ _).
    assert (sourceSub st1 = None) as H1 by done.
    clearbody st1. revert st1 H1.
    induction (closingSelector o) as [|n ns IH]; intros st1 H1; simpl; [done|].
    by apply IH, sourceSub_closing_notify.
  - unfold subscriber_error. destruct (isStopped st); simpl; by rewrite ?Hs.
Qed.

Lemma sourceSub_subscribing openings : sourceSub (subscribing openings) = None.
Proof.
  unfold subscribing.
  induction openings as [|n ns IH] using rev_ind; [done|].
  rewrite foldl_snoc. by apply sourceSub_openings_notify.
Qed.

Lemma subscribing_reachable openings : reachable (subscribing openings).
Proof. rewrite subscribing_run. apply reaches_run. Qed.

Lemma bufferToggle_run openings source :
  bufferToggle openings source =
  run (subscribe_source (subscribing openings)) (EvSource <$> source).
Proof. unfold bufferToggle, run. by rewrite foldl_fmap. Qed.

Lemma bufferToggle_reachable openings source evs :
  reachable (run (bufferToggle openings source) evs).
Proof.
  eapply reaches_trans; [|apply reaches_run].
  rewrite bufferToggle_run.
  eapply reaches_trans; [|apply reaches_run].
  apply reaches_subscribe; [apply subscribing_reachable|].
  apply sourceSub_subscribing.
Qed.

Lemma subscribed_reachable openings source :
  reachable (bufferToggle openings source).
Proof. apply (bufferToggle_reachable openings source []). Qed.

(** ** Once [subscriber] is stopped nothing reaches the consumer *)

Lemma quiet_emit k st : isStopped st = true -> quiet st (emit k st).
Proof. intros Hs. unfold quiet, emit, subscriber_next. simpl. by rewrite Hs. Qed.

Lemma quiet_closing_notify k n st :
  isStopped st = true -> quiet st (closing_notify k n st).
Proof.
  intros Hs. unfold closing_notify.
  destruct (heap st !! k) as [b|]; [|done].
  destruct (innerClosed b); [done|].
  destruct n as [x|e|]; simpl.
  - by apply quiet_emit.
  - unfold quiet, subscriber_error. by rewrite Hs.
  - by apply quiet_emit.
Qed.

Lemma quiet_trans st1 st2 st3 : quiet st1 st2 -> quiet st2 st3 -> quiet st1 st3.
Proof. unfold quiet. intros [? ?] [? ?]. split; congruence. Qed.

Lemma quiet_closing_sync k ns st :
  isStopped st = true ->
  quiet st (foldl (fun s n => closing_notify k n s) st ns).
Proof.
  revert st. induction ns as [|n ns IH]; intros st Hs; simpl; [done|].
  pose proof (quiet_closing_notify k n st Hs) as Hq.
  eapply quiet_trans; [exact Hq|]. apply IH, Hq.
Qed.

Lemma quiet_openings_notify n st :
  isStopped st = true -> quiet st (openings_notify n st).
Proof.
  intros Hs. unfold openings_notify.
  destruct (openingsSub st); [done|].
  destruct n as [o|e|]; simpl; [| |done].
  - unfold openings_next.
    set (st1 := set_buffers _ _).
    assert (quiet st st1) as H1 by done.
    pose proof (quiet_closing_sync (length (heap st)) (closingSelector o) st1 (proj1 H1))
      as H2.
    destruct H1 as [_ H1], H2 as [H2 H3]. split; simpl; congruence.
  - unfold quiet, subscriber_error. by rewrite Hs.
Qed.

Lemma quiet_shift_all bs st : isStopped st = true -> quiet st (shift_all bs st).
Proof.
  revert st. induction bs as [|r bs IH]; intros st Hs; simpl; [done|].
  unfold subscriber_next. simpl. rewrite Hs.
  by apply (IH (set_buffers bs st)).
Qed.

Lemma quiet_source_notify n st :
  isStopped st = true -> quiet st (source_notify n st).
Proof.
  intros Hs. unfold source_notify.
  destruct (sourceSub st) as [[]|]; [done| |done].
  destruct n as [v|e|]; simpl; [done| |].
  - unfold quiet, subscriber_error. by rewrite Hs.
  - destruct (quiet_shift_all (buffers st) st Hs) as [H1 H2].
    unfold quiet, subscriber_complete. by rewrite H1.
Qed.

Lemma quiet_step st ev : isStopped st = true -> quiet st (step st ev).
Proof.
  intros Hs. destruct ev as [n|n|k n|]; simpl.
  - by apply quiet_openings_notify.
  - by apply quiet_source_notify.
  - by apply quiet_closing_notify.
  - done.
Qed.

Lemma quiet_reaches st st' :
  isStopped st = true -> reaches st st' -> quiet st st'.
Proof.
  intros Hs. induction 1 as [|st' ev _ IH|st' _ IH _]; [done| |].
  - eapply quiet_trans; [exact IH|]. apply quiet_step, IH.
  - destruct IH as [? ?]. by split.
Qed.

(** ** What the arrays hold *)

Lemma values_alter (f : Buffer -> Buffer) k (h : list Buffer) :
  (forall b, values (f b) = values b) -> values <$> alter f k h = values <$> h.
Proof.
  intros Hf. rewrite (list_fmap_alter values f id) by (apply Forall_true, Hf).
  by apply list_alter_id.
Qed.

Lemma heap_values_unsubscribe st : heap_values (unsubscribe st) = heap_values st.
Proof. unfold heap_values. simpl. by rewrite <-list_fmap_compose. Qed.

Lemma heap_values_subscriber_error e st :
  heap_values (subscriber_error e st) = heap_values st.
Proof.
  unfold subscriber_error. destruct (isStopped st); [done|].
  by rewrite heap_values_unsubscribe.
Qed.

Lemma values_unsubscribe b : values (closingSubscription_unsubscribe b) = values b.
Proof. unfold closingSubscription_unsubscribe. by destruct (tokClosed b). Qed.

Lemma values_add b : values (closingSubscription_add b) = values b.
Proof.
  unfold closingSubscription_add. by destruct (tokClosed b), (innerClosed b).
Qed.

Lemma heap_values_emit k st : heap_values (emit k st) = heap_values st.
Proof.
  unfold heap_values, emit. simpl.
  rewrite values_alter by apply values_unsubscribe.
  by rewrite heap_subscriber_next.
Qed.

Lemma heap_values_closing_notify k n st :
  heap_values (closing_notify k n st) = heap_values st.
Proof.
  unfold closing_notify.
  destruct (heap st !! k) as [b|]; [|done].
  destruct (innerClosed b); [done|].
  destruct n as [x|e|]; simpl.
  - apply heap_values_emit.
  - unfold heap_values. simpl. rewrite values_alter by done.
    apply heap_values_subscriber_error.
  - unfold heap_values. simpl. rewrite values_alter by done.
    apply heap_values_emit.
Qed.

Lemma heap_values_closing_sync k ns st :
  heap_values (foldl (fun s n => closing_notify k n s) st ns) = heap_values st.
Proof.
  revert st. induction ns as [|n ns IH]; intros st; simpl; [done|].
  by rewrite IH, heap_values_closing_notify.
Qed.

Lemma heap_values_openings_next openValue st :
  heap_values (openings_next openValue st) = heap_values st ++ [[]].
Proof.
  unfold openings_next, heap_values at 1. simpl.
  rewrite values_alter by apply values_add.
  fold (heap_values (foldl (fun s n => closing_notify (length (heap st)) n s)
    (set_buffers (buffers st ++ [length (heap st)])
       (set_heap (heap st ++ [mkBuffer [] false false (isStopped st)]) st))
    (closingSelector openValue))).
  rewrite heap_values_closing_sync. unfold heap_values. simpl.
  by rewrite fmap_app.
Qed.

Lemma heap_values_shift_all bs st : heap_values (shift_all bs st) = heap_values st.
Proof. unfold heap_values. by rewrite heap_shift_all. Qed.

Lemma push_loop_lookup value bs (h : list Buffer) r :
  NoDup bs ->
  foldl (fun h r => alter (push value) r h) h bs !! r =
  (if decide (r ∈ bs) then push value else id) <$> h !! r.
Proof.
  intros Hnd. revert h. induction Hnd as [|a bs Ha Hnd IH]; intros h; cbn [foldl].
  - case_decide as Hin; [by apply elem_of_nil in Hin|]. by destruct (h !! r).
  - rewrite IH. destruct (decide (a = r)) as [->|Hne].
    + rewrite list_lookup_alter_eq.
      destruct (decide (r ∈ bs)); [done|].
      destruct (decide (r ∈ r :: bs)) as [_|Hn]; [|by exfalso; apply Hn; left].
      by destruct (h !! r).
    + rewrite list_lookup_alter_ne by done.
      destruct (decide (r ∈ bs)) as [Hin|Hnin];
        destruct (decide (r ∈ a :: bs)) as [Hin'|Hnin']; try done.
      * exfalso. apply Hnin'. by right.
      * exfalso. apply elem_of_cons in Hin' as [?|?]; [congruence|done].
Qed.

(** ** Facts about live subscribers *)

Lemma live_source_not_stopped st :
  Inv None st -> sourceSub st = Some false -> isStopped st = false.
Proof.
  intros HI Hsrc. destruct (isStopped st) eqn:Hs; [|done].
  destruct (inv_stopped _ _ HI Hs) as (_ & Hne & _). done.
Qed.

Lemma live_openings_not_stopped st :
  Inv None st -> openingsSub st = false -> isStopped st = false.
Proof.
  intros HI Hop. destruct (isStopped st) eqn:Hs; [|done].
  destruct (inv_stopped _ _ HI Hs) as (Ho & _ & _). congruence.
Qed.

Lemma live_closing_not_stopped p st k b :
  Inv p st -> heap st !! k = Some b -> innerClosed b = false ->
  isStopped st = false.
Proof.
  intros HI Hb Hin. destruct (isStopped st) eqn:Hs; [|done].
  destruct (inv_stopped _ _ HI Hs) as (_ & _ & Hall).
  rewrite Forall_lookup in Hall. specialize (Hall _ _ Hb). congruence.
Qed.

Lemma push_all_lookup value st r :
  NoDup (buffers st) ->
  heap_values (push_all value st) !! r =
  (if decide (r ∈ buffers st) then fun vs => vs ++ [value] else id)
    <$> heap_values st !! r.
Proof.
  intros Hnd. unfold heap_values, push_all. simpl.
  rewrite !list_lookup_fmap, push_loop_lookup by done.
  destruct (heap st !! r) as [b|]; [|done]. simpl.
  by destruct (decide (r ∈ buffers st)).
Qed.

Lemma shift_all_live bs st :
  isStopped st = false ->
  received (shift_all bs st) = received st ++ (Next <$> bs) /\
  isStopped (shift_all bs st) = false.
Proof.
  revert st. induction bs as [|r bs IH]; intros st Hs; simpl.
  - by rewrite app_nil_r.
  - unfold subscriber_next. simpl. rewrite Hs.
    destruct (IH (deliver (Next r) (set_buffers bs st)) Hs) as [-> ->].
    simpl. by rewrite <-app_assoc.
Qed.

Lemma buffers_shift_all bs st : buffers st = bs -> buffers (shift_all bs st) = [].
Proof.
  revert st. induction bs as [|r bs IH]; intros st Hb; simpl; [done|].
  apply IH. by rewrite buffers_subscriber_next.
Qed.

Lemma heap_closing_notify_nil k n st : heap st = [] -> closing_notify k n st = st.
Proof. intros Hh. unfold closing_notify. by rewrite Hh. Qed.

Lemma heap_step_nil st ev :
  heap st = [] -> is_opening ev = false -> heap (step st ev) = [].
Proof.
  intros Hh Hev. destruct ev as [[o|e|]|[v|e|]|k n|]; simpl in *; try done.
  - unfold openings_notify, subscriber_error.
    destruct (openingsSub st), (isStopped st); simpl; by rewrite ?Hh.
  - unfold openings_notify. by destruct (openingsSub st).
  - unfold source_notify, push_all.
    destruct (sourceSub st) as [[]|]; try done.
    simpl. revert Hh. generalize (heap st). induction (buffers st) as [|r bs IH]; [done|].
    intros h ->. simpl. by apply IH.
  - unfold source_notify, subscriber_error.
    destruct (sourceSub st) as [[]|]; try done.
    destruct (isStopped st); simpl; by rewrite ?Hh.
  - unfold source_notify, subscriber_complete.
    destruct (sourceSub st) as [[]|]; try done.
    pose proof (heap_shift_all (buffers st) st) as Hsh.
    destruct (isStopped (shift_all (buffers st) st)); simpl; by rewrite Hsh, Hh.
  - by rewrite heap_closing_notify_nil.
  - by rewrite Hh.
Qed.

Lemma heap_no_openings openings source evs :
  Forall (fun n => is_next n = false) openings ->
  Forall (fun ev => is_opening ev = false) evs ->
  heap (run (bufferToggle openings source) evs) = [].
Proof.
  intros Hop Hev.
  assert (forall st evs', heap st = [] ->
            Forall (fun ev => is_opening ev = false) evs' ->
            heap (run st evs') = []) as Hrun.
  { intros st evs' Hst H. revert st Hst. unfold run.
    induction H as [|ev evs' Hev' _ IH]; intros st Hst; simpl; [done|].
    by apply IH, heap_step_nil. }
  apply Hrun; [|done]. rewrite bufferToggle_run.
  apply Hrun.
  - simpl. rewrite subscribing_run. apply Hrun; [done|].
    rewrite Forall_fmap. eapply Forall_impl; [exact Hop|].
    by intros [o|e|].
  - rewrite Forall_fmap. apply Forall_true. by intros [v|e|].
Qed.

(** ** Small facts about lists *)

Lemma alter_snoc {A : Type} (f : A -> A) (l : list A) (x : A) :
  alter f (length l) (l ++ [x]) = l ++ [f x].
Proof. induction l as [|y l IH]; f_equal/=; auto. Qed.

Lemma alter_twice {A : Type} (f g : A -> A) k (l : list A) :
  alter f k (alter g k l) = alter (fun x => f (g x)) k l.
Proof. revert k. induction l as [|y l IH]; intros [|k]; f_equal/=; auto. Qed.

Lemma lookup_snoc_length {A : Type} (l : list A) (x : A) :
  (l ++ [x]) !! length l = Some x.
Proof. by rewrite list_lookup_middle. Qed.

Lemma closing_notify_closed k n st :
  (forall b, heap st !! k = Some b -> innerClosed b = true) ->
  closing_notify k n st = st.
Proof.
  intros Hk. unfold closing_notify.
  destruct (heap st !! k) as [b|]; [|done]. by rewrite (Hk b).
Qed.

Lemma emit_closes p k b st :
  Inv p st -> Some k <> p ->
  heap st !! k = Some b -> innerClosed b = false ->
  exists b', heap (emit k st) !! k = Some b' /\ innerClosed b' = true.
Proof.
  intros HI Hp Hb Hin. unfold emit. simpl.
  rewrite heap_subscriber_next. simpl.
  rewrite list_lookup_alter_eq, Hb. simpl. eexists. split; [done|].
  destruct (inv_tokens _ _ HI k b Hb Hp Hin) as [Htok Hchild].
  unfold closingSubscription_unsubscribe. rewrite Htok. simpl.
  by rewrite Hin, Hchild.
Qed.

Lemma closing_notify_flush k n b st :
  Inv None st -> heap st !! k = Some b -> innerClosed b = false ->
  is_next n = true \/ n = Complete ->
  closing_notify k n st = emit k st.
Proof.
  intros HI Hb Hin Hn. unfold closing_notify. rewrite Hb, Hin.
  destruct n as [x|e|]; [done|by destruct Hn|].
  destruct (emit_closes None k b st HI) as (b' & Hb' & Hin'); [done..|].
  rewrite (list_alter_ext close_inner id _ (heap (emit k st)) k); [|..|done].
  - rewrite list_alter_id by done. apply set_heap_id.
  - intros b'' Hb''. rewrite Hb' in Hb''. injection Hb'' as <-.
    destruct b' as [vs tc ch ic]. simpl in *. by subst ic.
Qed.

(** ** The openings subscriber and the rest of the operator *)

Lemma emit_set_openingsSub k st :
  emit k (set_openingsSub true st) = set_openingsSub true (emit k st).
Proof. unfold emit, subscriber_next. simpl. by destruct (isStopped st). Qed.

Lemma subscriber_error_set_openingsSub e st :
  subscriber_error e (set_openingsSub true st) =
  set_openingsSub true (subscriber_error e st).
Proof. unfold subscriber_error. simpl. by destruct (isStopped st). Qed.

Lemma closing_notify_set_openingsSub k n st :
  closing_notify k n (set_openingsSub true st) =
  set_openingsSub true (closing_notify k n st).
Proof.
  unfold closing_notify.
  change (heap (set_openingsSub true st)) with (heap st).
  destruct (heap st !! k) as [b|]; [|done].
  destruct (innerClosed b); [done|].
  destruct n as [x|e|].
  - apply emit_set_openingsSub.
  - by rewrite subscriber_error_set_openingsSub.
  - by rewrite emit_set_openingsSub.
Qed.

Lemma shift_all_set_openingsSub bs st :
  shift_all bs (set_openingsSub true st) = set_openingsSub true (shift_all bs st).
Proof.
  revert st. induction bs as [|r bs IH]; intros st; simpl; [done|].
  rewrite <-IH. f_equal. unfold subscriber_next. simpl.
  by destruct (isStopped st).
Qed.

Lemma source_notify_set_openingsSub n st :
  source_notify n (set_openingsSub true st) =
  set_openingsSub true (source_notify n st).
Proof.
  unfold source_notify.
  change (sourceSub (set_openingsSub true st)) with (sourceSub st).
  change (buffers (set_openingsSub true st)) with (buffers st).
  destruct (sourceSub st) as [[]|]; [done| |done].
  destruct n as [v|e|].
  - done.
  - by rewrite subscriber_error_set_openingsSub.
  - rewrite shift_all_set_openingsSub.
    unfold subscriber_complete. simpl.
    by destruct (isStopped (shift_all (buffers st) st)).
Qed.

Lemma buffers_closing_notify k n st :
  buffers (closing_notify k n st) = buffers st \/
  buffers (closing_notify k n st) = arrRemove (buffers st) k.
Proof.
  unfold closing_notify.
  destruct (heap st !! k) as [b|]; [|by left].
  destruct (innerClosed b); [by left|].
  destruct n as [x|e|]; simpl.
  - right. by rewrite buffers_subscriber_next.
  - left. unfold subscriber_error. by destruct (isStopped st).
  - right. by rewrite buffers_subscriber_next.
Qed.

Lemma buffers_closing_sync k bs ns st :
  k ∉ bs ->
  buffers st = bs ++ [k] \/ buffers st = bs ->
  let st' := foldl (fun s n => closing_notify k n s) st ns in
  buffers st' = bs ++ [k] \/ buffers st' = bs.
Proof.
  intros Hk. revert st. induction ns as [|n ns IH]; intros st Hst; simpl; [done|].
  apply IH.
  destruct (buffers_closing_notify k n st) as [->| ->]; [done|].
  right. destruct Hst as [-> | ->].
  - by apply arrRemove_snoc.
  - by apply arrRemove_absent.
Qed.

(** ** Subscribing to the openings notifier first *)

Lemma heap_values_openings_notify n st :
  heap_values (openings_notify n st) = heap_values st \/
  heap_values (openings_notify n st) = heap_values st ++ [[]].
Proof.
  unfold openings_notify. destruct (openingsSub st); [by left|].
  destruct n as [o|e|].
  - right. apply heap_values_openings_next.
  - left. apply (heap_values_subscriber_error e st).
  - by left.
Qed.

Lemma heap_values_subscribing openings :
  Forall (fun vs => vs = []) (heap_values (subscribing openings)).
Proof.
  unfold subscribing. induction openings as [|n ns IH] using rev_ind.
  - constructor.
  - rewrite foldl_snoc.
    destruct (heap_values_openings_notify n
                (foldl (fun s n => openings_notify n s) initial ns)) as [-> | ->].
    + done.
    + apply Forall_app. split; [done|]. by repeat constructor.
Qed.

Lemma source_sync_values vs st :
  NoDup (buffers st) -> sourceSub st = Some false ->
  let st' := foldl (fun s n => source_notify n s) st (Next <$> vs) in
  buffers st' = buffers st /\
  isStopped st' = isStopped st /\
  (forall r, r ∈ buffers st ->
     heap_values st' !! r = (fun l => l ++ vs) <$> heap_values st !! r).
Proof.
  revert st. induction vs as [|v vs IH]; intros st Hnd Hsrc.
  - simpl. split; [done|]. split; [done|]. intros r _.
    destruct (heap_values st !! r); simpl; [|done]. by rewrite app_nil_r.
  - rewrite fmap_cons. cbn [foldl]. cbv zeta.
    assert (source_notify (Next v) st = push_all v st) as ->
      by (unfold source_notify; by rewrite Hsrc).
    destruct (IH (push_all v st) Hnd Hsrc) as (Hb & Hs & Hv).
    split; [exact Hb|]. split; [exact Hs|]. intros r Hr.
    rewrite (Hv r Hr), push_all_lookup by done.
    rewrite decide_True by done.
    destruct (heap_values st !! r); simpl; [|done]. by rewrite <-app_assoc.
Qed.

Lemma source_sync_closed ns st :
  sourceSub st = Some true -> foldl (fun s n => source_notify n s) st ns = st.
Proof.
  intros Hsrc. induction ns as [|n ns IH]; simpl; [done|].
  assert (source_notify n st = st) as ->
    by (unfold source_notify; by rewrite Hsrc).
  done.
Qed.

Lemma subscribing_values os :
  (forall openValue, closingSelector openValue = []) ->
  let st := subscribing (Next <$> os) in
  buffers st = seq 0 (length os) /\
  length (heap st) = length os /\
  openingsSub st = false /\ isStopped st = false.
Proof.
  intros Hsel. unfold subscribing.
  induction os as [|o os IH] using rev_ind; [done|].
  rewrite fmap_app, foldl_app.
  set (st := foldl (fun s n => openings_notify n s) initial (Next <$> os)) in *.
  destruct IH as (Hb & Hh & Hop & Hs). simpl.
  unfold openings_notify. rewrite Hop.
  unfold openings_next. rewrite Hsel. simpl.
  rewrite Hb, Hh, length_alter, !length_app, Hh. simpl.
  rewrite Nat.add_1_r, seq_S. done.
Qed.

(** ** Single flush, with a consumer that only records

    Line 78 calls the consumer before line 79 closes the closing
    subscription.  The lemmas below are about a consumer that only records
    what it is given, as [subscriber_next] has it; a consumer that makes the
    closing notifier deliver again from inside its [next] is outside them.
    For such a consumer the second [emit] of one array needs a closing
    notifier that delivers twice before line 83 has registered its
    subscriber. *)

Lemma emitted_nexts (rs : list nat) :
  omap (fun n : notification E nat =>
          match n with Next r => Some r | _ => None end) (Next <$> rs) = rs.
Proof. induction rs as [|r rs IH]; csimpl; [done|]. by rewrite IH. Qed.

Lemma closed_at_alter (f : Buffer -> Buffer) k h r :
  (forall b, innerClosed b = true -> innerClosed (f b) = true) ->
  closed_at h r -> closed_at (alter f k h) r.
Proof.
  intros Hf Hr b Hb. destruct (decide (k = r)) as [->|Hne].
  - rewrite list_lookup_alter_eq in Hb.
    destruct (h !! r) as [b0|] eqn:Hb0; simplify_eq/=. by apply Hf, Hr.
  - rewrite list_lookup_alter_ne in Hb by done. by apply Hr.
Qed.

Lemma closed_at_close_all h r : closed_at (close_inner <$> h) r.
Proof.
  intros b Hb. rewrite list_lookup_fmap in Hb.
  destruct (h !! r); simplify_eq/=. done.
Qed.

Lemma Flushed_extend st st' new :
  Flushed st ->
  emitted st' = emitted st ++ new ->
  NoDup new ->
  (forall r, r ∈ new ->
     (r ∉ emitted st) /\ (r ∉ buffers st') /\ closed_at (heap st') r) ->
  (forall r, r ∈ emitted st -> r ∉ buffers st -> r ∉ buffers st') ->
  (forall r, r ∈ emitted st -> closed_at (heap st) r -> closed_at (heap st') r) ->
  Flushed st'.
Proof.
  intros [Hnd Hgone Hcl] Hem Hnew Hfresh Hbuf Hheap.
  constructor; rewrite Hem.
  - apply NoDup_app. split; [done|]. split; [|done].
    intros r Hr Hr'. by destruct (Hfresh r Hr').
  - intros r [Hr|Hr]%elem_of_app; [by apply Hbuf, Hgone|by apply Hfresh].
  - intros r [Hr|Hr]%elem_of_app; [by apply Hheap, Hcl|by apply Hfresh].
Qed.

Lemma Flushed_same st st' :
  Flushed st ->
  received st' = received st ->
  (forall r, r ∈ emitted st -> r ∉ buffers st -> r ∉ buffers st') ->
  (forall r, r ∈ emitted st -> closed_at (heap st) r -> closed_at (heap st') r) ->
  Flushed st'.
Proof.
  intros HF Hrec Hbuf Hheap.
  apply (Flushed_extend st st' []); try done.
  - unfold emitted. by rewrite Hrec, app_nil_r.
  - constructor.
  - intros r Hr. by apply elem_of_nil in Hr.
Qed.

Lemma Flushed_alter (f : Buffer -> Buffer) k st :
  (forall b, innerClosed b = true -> innerClosed (f b) = true) ->
  Flushed st -> Flushed (set_heap (alter f k (heap st)) st).
Proof.
  intros Hf HF. apply (Flushed_same st); try done.
  intros r _. by apply closed_at_alter.
Qed.

Lemma Flushed_unsubscribe st : Flushed st -> Flushed (unsubscribe st).
Proof.
  intros HF. apply (Flushed_same st); try done.
  intros r _ _. apply closed_at_close_all.
Qed.

Lemma Flushed_subscriber_error e st :
  Flushed st -> Flushed (subscriber_error e st).
Proof.
  intros HF. unfold subscriber_error. destruct (isStopped st); [done|].
  apply (Flushed_extend st _ []); try done.
  - unfold emitted. simpl. by rewrite omap_app.
  - constructor.
  - intros r Hr. by apply elem_of_nil in Hr.
  - intros r _ _. apply closed_at_close_all.
Qed.

Lemma Flushed_emit k b st :
  Inv None st -> heap st !! k = Some b -> innerClosed b = false ->
  Flushed st -> Flushed (emit k st).
Proof.
  intros HI Hb Hin HF.
  pose proof (live_closing_not_stopped _ st k b HI Hb Hin) as Hlive.
  destruct (emit_closes None k b st HI) as (b' & Hb' & Hin'); [done..|].
  apply (Flushed_extend st _ [k]); try done.
  - unfold emit, subscriber_next, emitted. simpl. rewrite Hlive. simpl.
    by rewrite omap_app.
  - repeat constructor. apply not_elem_of_nil.
  - intros r ->%list_elem_of_singleton. split; [|split].
    + intros Hk. pose proof (flushed_closed _ HF k Hk b Hb). congruence.
    + unfold emit. simpl. rewrite buffers_subscriber_next. simpl.
      rewrite elem_of_arrRemove by apply sorted_lt_NoDup, HI. tauto.
    + intros b'' Hb''. congruence.
  - intros r _ Hr. unfold emit. simpl. rewrite buffers_subscriber_next. simpl.
    intros Hin''. apply Hr. revert Hin''.
    rewrite elem_of_arrRemove by apply sorted_lt_NoDup, HI. tauto.
  - intros r _. unfold emit. simpl. rewrite heap_subscriber_next. simpl.
    apply closed_at_alter, innerClosed_unsubscribe.
Qed.

Lemma Flushed_closing_notify k n st :
  Inv None st -> Flushed st -> Flushed (closing_notify k n st).
Proof.
  intros HI HF. unfold closing_notify.
  destruct (heap st !! k) as [b|] eqn:Hb; [|done].
  destruct (innerClosed b) eqn:Hin; [done|].
  destruct n as [x|e|].
  - by apply (Flushed_emit k b).
  - by apply Flushed_alter, Flushed_subscriber_error.
  - by apply Flushed_alter, (Flushed_emit k b).
Qed.

Lemma emitted_allocated st r :
  Inv None st -> r ∈ emitted st -> r < length (heap st).
Proof.
  intros HI Hr. unfold emitted in Hr.
  apply list_elem_of_omap in Hr as (n & Hn & Hnr).
  pose proof (inv_refs _ _ HI) as Hrefs. rewrite Forall_forall in Hrefs.
  specialize (Hrefs n Hn). destruct n as [r'| |]; simplify_eq/=. done.
Qed.

Lemma closed_at_snoc h b r :
  r < length h -> closed_at h r -> closed_at (h ++ [b]) r.
Proof. intros Hr Hcl b' Hb'. rewrite lookup_app_l in Hb' by done. by apply Hcl. Qed.

Lemma tokClosed_unsubscribe b : tokClosed (closingSubscription_unsubscribe b) = true.
Proof.
  unfold closingSubscription_unsubscribe. by destruct (tokClosed b) eqn:Hb.
Qed.

Lemma add_close_inner b :
  tokClosed b = true ->
  closingSubscription_add (close_inner b) = closingSubscription_add b.
Proof. intros Hb. unfold closingSubscription_add. simpl. by rewrite Hb. Qed.

Lemma Flushed_openings_next openValue st :
  length (closingSelector openValue) <= 1 ->
  Inv None st -> Flushed st -> Flushed (openings_next openValue st).
Proof.
  intros Hone HI HF.
  assert (length (heap st) ∉ buffers st) as Hfresh.
  { intros Hin. pose proof (inv_bound _ _ HI) as Hb.
    rewrite Forall_forall in Hb. specialize (Hb _ Hin). simpl in Hb. lia. }
  assert (forall r, r ∈ emitted st -> r <> length (heap st)) as Hold.
  { intros r Hr. pose proof (emitted_allocated st r HI Hr). lia. }
  assert (forall r, r ∈ emitted st -> r ∉ buffers st ->
                    r ∉ buffers (openings_next openValue st)) as Hbuf.
  { intros r Hr Hnot. unfold openings_next. simpl.
    pose proof (buffers_closing_sync (length (heap st)) (buffers st)
                  (closingSelector openValue)
                  (set_buffers (buffers st ++ [length (heap st)])
                     (set_heap (heap st ++ [mkBuffer [] false false (isStopped st)]) st))
                  Hfresh (or_introl eq_refl)) as [-> | ->]; [|done].
    rewrite elem_of_app, list_elem_of_singleton. specialize (Hold r Hr). tauto. }
  unfold openings_next in *.
  set (k := length (heap st)) in *.
  set (fresh := mkBuffer [] false false (isStopped st)) in *.
  set (st1 := set_buffers (buffers st ++ [k]) (set_heap (heap st ++ [fresh]) st)) in *.
  assert (heap st1 !! k = Some fresh) as Hk by apply lookup_snoc_length.
  assert (Flushed st1) as HF1.
  { apply (Flushed_same st); try done.
    - intros r Hr Hnot. simpl.
      rewrite elem_of_app, list_elem_of_singleton. specialize (Hold r Hr). tauto.
    - intros r Hr. apply closed_at_snoc. by apply emitted_allocated. }
  destruct (closingSelector openValue) as [|n [|n' ns]]; simpl in Hone; [| |lia].
  - by apply Flushed_alter; [apply innerClosed_add|].
  - cbn [foldl] in *. unfold closing_notify in *. rewrite Hk in *.
    cbn [innerClosed fresh] in *.
    destruct (isStopped st) eqn:Hs.
    { by apply Flushed_alter; [apply innerClosed_add|]. }
    assert (Flushed (set_heap (alter closingSubscription_add k (heap (emit k st1)))
                       (emit k st1))) as Hemit.
    { apply (Flushed_extend st _ [k]); try done.
      - unfold emit, subscriber_next, emitted. simpl. rewrite Hs. simpl.
        by rewrite omap_app.
      - repeat constructor. apply not_elem_of_nil.
      - intros r ->%list_elem_of_singleton. split; [|split].
        + intros Hin. by apply (Hold k).
        + unfold emit. simpl. rewrite buffers_subscriber_next. simpl.
          by rewrite arrRemove_snoc.
        + unfold emit. simpl. rewrite heap_subscriber_next. simpl.
          unfold k. rewrite !alter_snoc. intros b Hb.
          rewrite lookup_snoc_length in Hb. by injection Hb as <-.
      - intros r Hr Hnot. unfold emit. simpl.
        rewrite buffers_subscriber_next. simpl. by rewrite arrRemove_snoc.
      - intros r Hr Hcl. unfold emit. simpl. rewrite heap_subscriber_next. simpl.
        apply closed_at_alter; [apply innerClosed_add|].
        apply closed_at_alter; [apply innerClosed_unsubscribe|].
        apply closed_at_snoc; [|done]. by apply emitted_allocated. }
    destruct n as [x|e|].
    + exact Hemit.
    + apply Flushed_alter; [apply innerClosed_add|].
      by apply Flushed_alter, Flushed_subscriber_error.
    + change (Flushed (set_heap (alter closingSubscription_add k
                                 (alter close_inner k (heap (emit k st1))))
                       (emit k st1))).
      rewrite alter_twice.
      rewrite (list_alter_ext _ closingSubscription_add _ (heap (emit k st1)) k);
        [exact Hemit| |done].
      intros b Hb. apply add_close_inner.
      unfold emit in Hb. simpl in Hb. rewrite heap_subscriber_next in Hb. simpl in Hb.
      rewrite list_lookup_alter_eq in Hb.
      destruct ((heap st ++ [fresh]) !! k) as [b0|]; simplify_eq/=.
      apply tokClosed_unsubscribe.
Qed.

Lemma Flushed_openings_notify n st :
  (forall openValue, length (closingSelector openValue) <= 1) ->
  Inv None st -> Flushed st -> Flushed (openings_notify n st).
Proof.
  intros Hone HI HF. unfold openings_notify.
  destruct (openingsSub st); [done|].
  destruct n as [o|e|].
  - by apply Flushed_openings_next.
  - apply (Flushed_same (subscriber_error e st));
      [by apply Flushed_subscriber_error|done..].
  - by apply (Flushed_same st).
Qed.

Lemma closed_at_push_loop value bs h r :
  closed_at h r -> closed_at (foldl (fun h r => alter (push value) r h) h bs) r.
Proof.
  revert h. induction bs as [|a bs IH]; intros h Hcl; simpl; [done|].
  by apply IH, closed_at_alter.
Qed.

Lemma Flushed_source_notify n st :
  Inv None st -> Flushed st -> Flushed (source_notify n st).
Proof.
  intros HI HF. unfold source_notify.
  destruct (sourceSub st) as [[]|] eqn:Hsrc; [done| |done].
  pose proof (live_source_not_stopped st HI Hsrc) as Hlive.
  destruct n as [v|e|].
  - apply (Flushed_same st); try done.
    intros r _. apply closed_at_push_loop.
  - apply (Flushed_same (subscriber_error e st));
      [by apply Flushed_subscriber_error|done..].
  - destruct (shift_all_live (buffers st) st Hlive) as [Hrec Hs].
    unfold subscriber_complete. rewrite Hs.
    apply (Flushed_extend st _ (buffers st)); try done.
    + unfold emitted. simpl. rewrite Hrec, !omap_app, emitted_nexts. simpl.
      by rewrite app_nil_r.
    + apply sorted_lt_NoDup, HI.
    + intros r Hr. split; [|split].
      * intros Hem. by apply (flushed_gone _ HF r).
      * simpl. rewrite buffers_shift_all by done. apply not_elem_of_nil.
      * simpl. apply closed_at_close_all.
    + intros r _ _. simpl. rewrite buffers_shift_all by done. apply not_elem_of_nil.
    + intros r _ _. simpl. apply closed_at_close_all.
Qed.

Lemma Flushed_step st ev :
  (forall openValue, length (closingSelector openValue) <= 1) ->
  Inv None st -> Flushed st -> Flushed (step st ev).
Proof.
  intros Hone HI HF. destruct ev as [n|n|k n|]; simpl.
  - by apply Flushed_openings_notify.
  - by apply Flushed_source_notify.
  - by apply Flushed_closing_notify.
  - by apply Flushed_unsubscribe.
Qed.

Lemma Flushed_reachable st :
  (forall openValue, length (closingSelector openValue) <= 1) ->
  reachable st -> Flushed st.
Proof.
  intros Hone Hreach.
  induction Hreach as [|st' ev Hst' IH|st' Hst' IH Hsub].
  - constructor; simpl; [constructor|intros r Hr; by apply elem_of_nil in Hr..].
  - apply Flushed_step; [done| |done]. by apply Inv_reachable.
  - by apply (Flushed_same st').
Qed.

(** A consumer that only records is not handed an array twice, provided no
    closing notifier delivers more than one notification inside its
    [subscribe]. *)
Lemma single_flush_without_sync_replay st :
  (forall openValue, length (closingSelector openValue) <= 1) ->
  reachable st -> NoDup (emitted st).
Proof. intros Hone Hreach. by apply flushed_once, Flushed_reachable. Qed.

(** ** Properties of the operator *)

Lemma source_complete_live st :
  reachable st -> sourceSub st = Some false ->
  let st' := step st (EvSource Complete) in
  received st' = received st ++ (Next <$> buffers st) ++ [Complete] /\
  StronglySorted lt (buffers st) /\
  heap_values st' = heap_values st /\
  buffers st' = [] /\
  isStopped st' = true.
Proof.
  intros Hreach Hsrc. apply Inv_reachable in Hreach as HI. simpl.
  unfold source_notify. rewrite Hsrc.
  pose proof (live_source_not_stopped st HI Hsrc) as Hlive.
  destruct (shift_all_live (buffers st) st Hlive) as [Hrec Hs].
  unfold subscriber_complete. rewrite Hs. simpl.
  split; [by rewrite Hrec, <-app_assoc|].
  split; [apply HI|].
  split; [|split; [by apply buffers_shift_all|done]].
  change (heap_values (unsubscribe (shift_all (buffers st) st)) = heap_values st).
  by rewrite heap_values_unsubscribe, heap_values_shift_all.
Qed.

(** C1 (fan-out).  When a value of the main source arrives, it is appended
    at the end of every array that is in [buffers] at that moment and of no
    other array: arrays removed earlier keep their contents, none is
    created, and an array created by any later opening starts out empty. *)
Theorem source_value_fans_out st value :
  reachable st -> sourceSub st = Some false ->
  let st' := step st (EvSource (Next value)) in
  buffers st' = buffers st /\
  received st' = received st /\
  (forall r,
     heap_values st' !! r =
     (if decide (r ∈ buffers st) then fun vs => vs ++ [value] else id)
       <$> heap_values st !! r) /\
  (forall st'' openValue,
     reaches st' st'' ->
     heap_values (openings_next openValue st'') = heap_values st'' ++ [[]]).
Proof.
  intros Hreach Hsrc. simpl. unfold source_notify. rewrite Hsrc.
  split; [done|]. split; [done|]. split.
  - intros r. apply push_all_lookup, sorted_lt_NoDup.
    by apply Inv_reachable in Hreach as [? ? ? ? ? ?].
  - intros st'' openValue _. apply heap_values_openings_next.
Qed.

(** C3 (FIFO completion flush).  When the main source completes, the
    arrays still in [buffers] are handed to the consumer in the order of
    the array, which is the order of their creation, then the consumer is
    completed; the arrays are handed over as they are.  When no opening
    value was ever delivered the consumer has received no value, and the
    completion is all it gets. *)
Theorem source_complete_flushes_fifo :
  (forall st,
     reachable st -> sourceSub st = Some false ->
     let st' := step st (EvSource Complete) in
     received st' = received st ++ (Next <$> buffers st) ++ [Complete] /\
     StronglySorted lt (buffers st) /\
     heap_values st' = heap_values st /\
     buffers st' = [] /\
     isStopped st' = true) /\
  (forall openings source evs,
     Forall (fun n => is_next n = false) openings ->
     Forall (fun ev => is_opening ev = false) evs ->
     let st := run (bufferToggle openings source) evs in
     (forall r, Next r ∉ received st) /\
     (sourceSub st = Some false ->
      received (step st (EvSource Complete)) = [Complete])).
Proof.
  split; [exact source_complete_live|].
  intros openings source evs Hop Hev st.
  pose proof (heap_no_openings openings source evs Hop Hev) as Hheap.
  pose proof (Inv_reachable _ (bufferToggle_reachable openings source evs)) as HI.
  fold st in Hheap, HI.
  assert (forall r, Next r ∉ received st) as Hnone.
  { intros r Hin. pose proof (inv_refs _ _ HI) as Hrefs.
    rewrite Forall_forall in Hrefs. specialize (Hrefs _ Hin).
    simpl in Hrefs. rewrite Hheap in Hrefs. simpl in Hrefs. lia. }
  split; [done|]. intros Hsrc.
  destruct (source_complete_live st (bufferToggle_reachable openings source evs) Hsrc)
    as (-> & _).
  pose proof (inv_bound _ _ HI) as Hbound. rewrite Hheap in Hbound.
  destruct (buffers st) as [|r bs].
  - destruct (received_ok_live st (inv_received _ _ HI)
                (live_source_not_stopped st HI Hsrc)) as [[|r rs] Hrs].
    + by rewrite Hrs.
    + exfalso. apply (Hnone r). rewrite Hrs. simpl. by left.
  - apply Forall_cons in Hbound as [Hr _]. simpl in Hr. lia.
Qed.

(** C4 (errors are terminal).  An error that reaches a live subscriber of
    the main source, of the openings notifier or of a closing notifier is
    passed to the consumer as it is, [subscriber] is stopped, and nothing is
    delivered afterwards: the arrays still in [buffers] are never emitted. *)
Theorem error_is_terminal st ev e :
  reachable st -> live_error st ev = Some e ->
  let st' := step st ev in
  received st' = received st ++ [Error e] /\
  isStopped st' = true /\
  (forall st'', reaches st' st'' -> received st'' = received st ++ [Error e]).
Proof.
  intros Hreach Hev. apply Inv_reachable in Hreach as HI.
  assert (received (step st ev) = received st ++ [Error e] /\
          isStopped (step st ev) = true) as [Hrec Hs].
  { destruct ev as [[o|e'|]|[v|e'|]|k [x|e'|]|]; simpl in *; try done.
    - (* the closing notifier fails inside its subscribe *)
      unfold openings_notify.
      destruct (openingsSub st) eqn:Hop; [done|].
      pose proof (live_openings_not_stopped st HI Hop) as Hlive.
      unfold openings_next. simpl.
      destruct (closingSelector o) as [|[x|e'|] ns]; try done.
      injection Hev as ->. cbn [foldl].
      set (st1 := set_buffers _ _).
      assert (quiet (unsubscribe (deliver (Error e) st1))
                (closing_notify (length (heap st)) (Error e) st1)) as [Hq1 Hq2].
      { unfold closing_notify, st1. simpl.
        rewrite lookup_snoc_length. simpl. rewrite Hlive.
        unfold subscriber_error. simpl. by rewrite Hlive. }
      destruct (quiet_closing_sync (length (heap st)) ns _ Hq1) as [Hq3 Hq4].
      split; [by rewrite Hq4, Hq2|done].
    - destruct (openingsSub st) eqn:Hop; [done|]. injection Hev as ->.
      unfold openings_notify, subscriber_error. rewrite Hop.
      by rewrite (live_openings_not_stopped st HI Hop).
    - destruct (sourceSub st) as [[]|] eqn:Hsrc; try done. injection Hev as ->.
      unfold source_notify, subscriber_error. rewrite Hsrc.
      by rewrite (live_source_not_stopped st HI Hsrc).
    - destruct (heap st !! k) as [b|] eqn:Hb; [|done].
      destruct (innerClosed b) eqn:Hin; [done|]. injection Hev as ->.
      unfold closing_notify, subscriber_error. rewrite Hb, Hin.
      by rewrite (live_closing_not_stopped _ st k b HI Hb Hin). }
  simpl. split; [done|]. split; [done|].
  intros st'' Hst''. destruct (quiet_reaches _ _ Hs Hst'') as [_ ->]. done.
Qed.

(** Where the completion of a closing notifier does act as a value from
    it: when it arrives after the notifier's [subscribe] has returned, and
    when it is the only notification delivered inside [subscribe].  The
    array is taken out of [buffers] and handed to the consumer, and the
    notifier is ignored from then on. *)
Lemma closing_complete_flushes_like_next st :
  reachable st ->
  (forall k x, step st (EvClosing k Complete) = step st (EvClosing k (Next x))) /\
  (forall k b,
     heap st !! k = Some b -> innerClosed b = false ->
     let st' := step st (EvClosing k Complete) in
     buffers st' = arrRemove (buffers st) k /\
     received st' = received st ++ [Next k] /\
     (forall n, step st' (EvClosing k n) = st')) /\
  (forall o1 o2 x,
     closingSelector o1 = [Complete] -> closingSelector o2 = [Next x] ->
     step st (EvOpenings (Next o1)) = step st (EvOpenings (Next o2))).
Proof.
  intros Hreach. apply Inv_reachable in Hreach as HI.
  split; [|split].
  - intros k x. simpl.
    destruct (heap st !! k) as [b|] eqn:Hb.
    + destruct (innerClosed b) eqn:Hin.
      * rewrite !closing_notify_closed; [done|intros ? ?; congruence..].
      * rewrite !(closing_notify_flush k _ b); auto.
    + rewrite !closing_notify_closed; [done|intros ? ?; congruence..].
  - intros k b Hb Hin. simpl.
    pose proof (live_closing_not_stopped _ st k b HI Hb Hin) as Hlive.
    rewrite (closing_notify_flush k _ b) by auto.
    split; [unfold emit; simpl; by rewrite buffers_subscriber_next|].
    split; [unfold emit, subscriber_next; simpl; by rewrite Hlive|].
    intros n. destruct (emit_closes None k b st HI) as (b' & Hb' & Hin'); [done..|].
    apply closing_notify_closed. intros ? ?. congruence.
  - intros o1 o2 x Ho1 Ho2. simpl. unfold openings_notify.
    destruct (openingsSub st); [done|].
    unfold openings_next. rewrite Ho1, Ho2. cbn [foldl].
    set (k := length (heap st)). set (st1 := set_buffers _ _).
    unfold closing_notify.
    assert (heap st1 !! k = Some (mkBuffer [] false false (isStopped st))) as ->
      by apply lookup_snoc_length.
    cbn [innerClosed]. destruct (isStopped st) eqn:Hs; [done|].
    set (st2 := emit k st1).
    change (set_heap (alter closingSubscription_add k
                        (alter close_inner k (heap st2))) st2 =
            set_heap (alter closingSubscription_add k (heap st2)) st2).
    f_equal. rewrite alter_twice.
    apply list_alter_ext; [|done].
    intros b Hb. unfold st2, emit in Hb. simpl in Hb.
    rewrite heap_subscriber_next in Hb. simpl in Hb.
    unfold k in Hb. rewrite alter_snoc, lookup_snoc_length in Hb.
    by injection Hb as <-.
Qed.

(** C6 (first terminal wins).  The consumer receives values and then at
    most one terminal notification, error or completion, after which
    [subscriber] is stopped; and whatever happens once [subscriber] is
    stopped, the consumer receives nothing more. *)
Theorem terminal_first_wins st :
  reachable st ->
  (exists rs : list nat,
     received st = Next <$> rs \/
     (isStopped st = true /\
      exists t, is_next t = false /\ received st = (Next <$> rs) ++ [t])) /\
  (isStopped st = true ->
   forall st', reaches st st' -> received st' = received st).
Proof.
  intros Hreach. split.
  - apply (inv_received _ _ (Inv_reachable st Hreach)).
  - intros Hs st' Hst'. by destruct (quiet_reaches st st' Hs Hst').
Qed.

(** C7 (completion of the openings notifier).  The completion closes the
    openings subscriber and changes nothing else: the consumer is not
    called, [buffers] and the arrays stay as they are and the main source
    stays subscribed.  From then on the openings notifier is ignored, and
    every other event has the effect it would have had without the
    completion. *)
Theorem openings_complete_is_swallowed st :
  let st' := step st (EvOpenings Complete) in
  st' = set_openingsSub true st /\
  (forall n, step st' (EvOpenings n) = st') /\
  (forall ev,
     from_openings ev = false ->
     step st' ev = set_openingsSub true (step st ev)).
Proof.
  assert (step st (EvOpenings Complete) = set_openingsSub true st) as ->.
  { simpl. unfold openings_notify.
    destruct (openingsSub st) eqn:Hop; [|done]. destruct st. simpl in *. by subst. }
  simpl. split; [done|]. split; [done|].
  intros [n|n|k n|] Hev; simpl; [done|..].
  - apply source_notify_set_openingsSub.
  - apply closing_notify_set_openingsSub.
  - done.
Qed.

(** C8 (openings).  Every opening value that reaches the live openings
    subscriber allocates exactly one array, which is empty, whatever the
    value and whatever is open already.  When its closing notifier
    delivers nothing inside [subscribe], the array is the last element of
    [buffers] and has an open closing subscription of its own, and the
    consumer is not called; otherwise the array is last in [buffers] or was
    taken out again by its own notifier.  A value or completion from one
    closing notifier leaves the other arrays and their subscriptions
    alone. *)
Theorem opening_creates_one_buffer st openValue :
  reachable st -> openingsSub st = false ->
  let k := length (heap st) in
  let st' := step st (EvOpenings (Next openValue)) in
  heap_values st' = heap_values st ++ [[]] /\
  (k ∉ buffers st) /\
  (buffers st' = buffers st ++ [k] \/ buffers st' = buffers st) /\
  (closingSelector openValue = [] ->
   buffers st' = buffers st ++ [k] /\
   heap st' = heap st ++ [mkBuffer [] false true false] /\
   received st' = received st) /\
  (forall k' n j,
     n = Complete \/ is_next n = true -> j <> k' ->
     let st'' := step st (EvClosing k' n) in
     heap st'' !! j = heap st !! j /\ (j ∈ buffers st'' <-> j ∈ buffers st)).
Proof.
  intros Hreach Hop. apply Inv_reachable in Hreach as HI.
  simpl. unfold openings_notify. rewrite Hop.
  assert (length (heap st) ∉ buffers st) as Hfresh.
  { intros Hin. pose proof (inv_bound _ _ HI) as Hb.
    rewrite Forall_forall in Hb. specialize (Hb _ Hin). simpl in Hb. lia. }
  split; [apply heap_values_openings_next|].
  split; [done|].
  split; [|split].
  - unfold openings_next. simpl. by apply buffers_closing_sync; [|left].
  - intros Hsel. unfold openings_next. rewrite Hsel. simpl.
    rewrite alter_snoc.
    by rewrite (live_openings_not_stopped st HI Hop).
  - intros k' n j Hn Hj.
    destruct (heap st !! k') as [b|] eqn:Hb.
    + destruct (innerClosed b) eqn:Hin.
      * rewrite closing_notify_closed; [done|intros ? ?; congruence].
      * rewrite (closing_notify_flush k' n b) by tauto.
        unfold emit. simpl.
        rewrite heap_subscriber_next, buffers_subscriber_next. simpl.
        rewrite list_lookup_alter_ne by done. split; [done|].
        rewrite elem_of_arrRemove by apply sorted_lt_NoDup, HI. tauto.
    + rewrite closing_notify_closed; [done|intros ? ?; congruence].
Qed.

(** C9 (cancellation).  When the consumer unsubscribes, nothing is
    delivered to it then or at any later moment: the arrays still in
    [buffers] are never emitted, and no error or completion follows. *)
Theorem unsubscribe_discards st st' :
  reaches (step st EvUnsubscribe) st' ->
  received st' = received st /\ isStopped st' = true.
Proof.
  intros Hst'.
  destruct (quiet_reaches (unsubscribe st) st' eq_refl Hst') as [? ?].
  by split.
Qed.

(** C10 (order of subscription).  The openings notifier is subscribed to
    first: when [subscribe] returns, the main source has delivered its
    values after everything the openings notifier delivered, so every array
    that is in [buffers] holds all of these values (unless an error has
    stopped the operator before line 90, in which case it holds none). *)
Theorem openings_subscribed_first openings vs :
  let st := bufferToggle openings (Next <$> vs) in
  buffers st = buffers (subscribing openings) /\
  (forall r, r ∈ buffers st ->
     heap_values st !! r = Some (if isStopped st then [] else vs)) /\
  (forall os,
     openings = Next <$> os ->
     (forall openValue, closingSelector openValue = []) ->
     buffers st = seq 0 (length os) /\ isStopped st = false).
Proof.
  simpl. unfold bufferToggle.
  set (st0 := subscribing openings).
  pose proof (Inv_reachable _ (subscribing_reachable openings)) as HI.
  fold st0 in HI.
  assert (forall r, r ∈ buffers st0 -> heap_values st0 !! r = Some []) as Hempty.
  { intros r Hr. pose proof (inv_bound _ _ HI) as Hb.
    rewrite Forall_forall in Hb. specialize (Hb _ Hr). simpl in Hb.
    destruct (lookup_lt_is_Some_2 (heap_values st0) r) as [l Hl].
    { unfold heap_values. by rewrite length_fmap. }
    pose proof (heap_values_subscribing openings) as Hall. fold st0 in Hall.
    rewrite Forall_lookup in Hall. by rewrite Hl, (Hall _ _ Hl). }
  assert (buffers (foldl (fun s n => source_notify n s) (subscribe_source st0)
                     (Next <$> vs)) = buffers st0 /\
          isStopped (foldl (fun s n => source_notify n s) (subscribe_source st0)
                       (Next <$> vs)) = isStopped st0 /\
          forall r, r ∈ buffers st0 ->
            heap_values (foldl (fun s n => source_notify n s) (subscribe_source st0)
                           (Next <$> vs)) !! r =
            Some (if isStopped st0 then [] else vs)) as (Hb & Hs & Hv).
  { destruct (isStopped st0) eqn:Hstop.
    - rewrite source_sync_closed by (simpl; by rewrite Hstop).
      simpl. split; [done|]. split; [done|]. exact Hempty.
    - destruct (source_sync_values vs (subscribe_source st0)) as (Hb & Hs & Hv).
      { simpl. apply sorted_lt_NoDup, HI. }
      { simpl. by rewrite Hstop. }
      split; [done|]. split; [by rewrite Hs|].
      intros r Hr. rewrite (Hv r Hr).
      change (heap_values (subscribe_source st0)) with (heap_values st0).
      by rewrite (Hempty r Hr). }
  split; [done|]. split.
  - intros r Hr. rewrite Hb in Hr. rewrite Hs. by apply Hv.
  - intros os -> Hsel.
    destruct (subscribing_values os Hsel) as (Hb' & _ & _ & Hs').
    fold st0 in Hb', Hs'. by rewrite Hb, Hs.
Qed.

(** ** Further properties: what the consumer holds *)

Lemma emitted_deliver n st :
  emitted (deliver n st) =
  emitted st ++ match n with Next r => [r] | _ => [] end.
Proof. unfold emitted. simpl. rewrite omap_app. by destruct n. Qed.

Lemma emitted_subscriber_next r st :
  emitted (subscriber_next r st) = emitted st ++ (if isStopped st then [] else [r]).
Proof.
  unfold subscriber_next. destruct (isStopped st); [by rewrite app_nil_r|].
  apply (emitted_deliver (Next r)).
Qed.

Lemma emitted_subscriber_error e st : emitted (subscriber_error e st) = emitted st.
Proof.
  unfold subscriber_error. destruct (isStopped st); [done|].
  change (emitted (deliver (Error e) st) = emitted st).
  by rewrite emitted_deliver, app_nil_r.
Qed.

Lemma buffers_subscriber_error e st : buffers (subscriber_error e st) = buffers st.
Proof. unfold subscriber_error. by destruct (isStopped st). Qed.

Lemma elem_of_arrRemove_ne bs k r : r ∈ bs -> r <> k -> r ∈ arrRemove bs k.
Proof.
  induction bs as [|x bs IH]; simpl; [done|].
  intros [->|Hr]%elem_of_cons Hne.
  - case_decide; [done|]. by left.
  - case_decide; [done|]. right. by apply IH.
Qed.

Lemma elem_of_arrRemove_1 bs k r : r ∈ arrRemove bs k -> r ∈ bs.
Proof.
  induction bs as [|x bs IH]; simpl; [done|].
  case_decide; [by right|].
  intros [->|Hr]%elem_of_cons; [by left|right; by apply IH].
Qed.

Lemma gone_emit k st : NoDup (buffers st) -> gone st -> gone (emit k st).
Proof.
  intros Hnd Hg r. unfold emit.
  change (r ∈ emitted (subscriber_next k (set_buffers (arrRemove (buffers st) k) st)) ->
          r ∉ buffers (subscriber_next k (set_buffers (arrRemove (buffers st) k) st))).
  rewrite emitted_subscriber_next, buffers_subscriber_next. simpl.
  intros [Hr|Hr]%elem_of_app.
  - intros Hin%elem_of_arrRemove_1. by apply (Hg r).
  - destruct (isStopped st); [by apply elem_of_nil in Hr|].
    apply list_elem_of_singleton in Hr as ->.
    rewrite elem_of_arrRemove by done. tauto.
Qed.

Lemma gone_closing_notify p k n st :
  Inv p st -> gone st -> gone (closing_notify k n st).
Proof.
  intros HI Hg. unfold closing_notify.
  destruct (heap st !! k) as [b|]; [|done].
  destruct (innerClosed b); [done|].
  pose proof (sorted_lt_NoDup _ (inv_sorted _ _ HI)) as Hnd.
  destruct n as [x|e|].
  - by apply gone_emit.
  - intros r. simpl.
    change (r ∈ emitted (subscriber_error e st) -> r ∉ buffers (subscriber_error e st)).
    rewrite emitted_subscriber_error, buffers_subscriber_error. apply Hg.
  - apply (gone_emit k st Hnd Hg).
Qed.

Lemma gone_closing_sync p k ns st :
  Inv p st -> gone st -> gone (foldl (fun s n => closing_notify k n s) st ns).
Proof.
  revert st. induction ns as [|n ns IH]; intros st HI Hg; simpl; [done|].
  apply IH; [by apply Inv_closing_notify|by apply (gone_closing_notify p)].
Qed.

Lemma gone_openings_next openValue st :
  Inv None st -> gone st -> gone (openings_next openValue st).
Proof.
  intros HI Hg. unfold openings_next.
  set (st1 := set_buffers _ _).
  assert (gone st1) as Hg1.
  { intros r Hr. simpl. rewrite elem_of_app, list_elem_of_singleton.
    pose proof (emitted_allocated st r HI Hr). specialize (Hg r Hr).
    intros [?|?]; [done|lia]. }
  pose proof (gone_closing_sync _ (length (heap st)) (closingSelector openValue)
                st1 (Inv_pushed st HI) Hg1) as Hg2.
  exact Hg2.
Qed.

Lemma gone_step st ev : Inv None st -> gone st -> gone (step st ev).
Proof.
  intros HI Hg. destruct ev as [[o|e|]|[v|e|]|k n|]; simpl.
  - unfold openings_notify. destruct (openingsSub st); [done|].
    by apply gone_openings_next.
  - unfold openings_notify. destruct (openingsSub st); [done|].
    intros r.
    change (r ∈ emitted (subscriber_error e st) -> r ∉ buffers (subscriber_error e st)).
    rewrite emitted_subscriber_error, buffers_subscriber_error. apply Hg.
  - unfold openings_notify. by destruct (openingsSub st).
  - unfold source_notify. by destruct (sourceSub st) as [[]|].
  - unfold source_notify. destruct (sourceSub st) as [[]|]; [done| |done].
    intros r.
    change (r ∈ emitted (subscriber_error e st) -> r ∉ buffers (subscriber_error e st)).
    rewrite emitted_subscriber_error, buffers_subscriber_error. apply Hg.
  - unfold source_notify. destruct (sourceSub st) as [[]|]; [done| |done].
    intros r _.
    assert (buffers (subscriber_complete (shift_all (buffers st) st)) = []) as Hb.
    { unfold subscriber_complete.
      destruct (isStopped (shift_all (buffers st) st)); simpl;
        by apply buffers_shift_all. }
    simpl. rewrite Hb. apply not_elem_of_nil.
  - by apply (gone_closing_notify None).
  - done.
Qed.

Lemma gone_reachable st : reachable st -> gone st.
Proof.
  intros Hreach. induction Hreach as [|st' ev Hst' IH|st' Hst' IH Hsub].
  - intros r Hr. by apply elem_of_nil in Hr.
  - apply gone_step; [by apply Inv_reachable|done].
  - done.
Qed.

(** The calls made on the consumer are never taken back. *)
Lemma received_closing_notify k n st :
  exists l, received (closing_notify k n st) = received st ++ l /\
            Forall (fun m => m = Next k \/ exists e, m = Error e) l.
Proof.
  unfold closing_notify.
  destruct (heap st !! k) as [b|]; [|exists []; by rewrite app_nil_r].
  destruct (innerClosed b); [exists []; by rewrite app_nil_r|].
  assert (exists l, received (emit k st) = received st ++ l /\
                    Forall (fun m => m = Next k \/ exists e, m = Error e) l) as Hemit.
  { unfold emit, subscriber_next. simpl. destruct (isStopped st); simpl.
    - exists []. by rewrite app_nil_r.
    - exists [Next k]. split; [done|]. repeat constructor. }
  destruct n as [x|e|]; [done| |done].
  unfold subscriber_error. simpl. destruct (isStopped st); simpl.
  - exists []. by rewrite app_nil_r.
  - exists [Error e]. split; [done|]. constructor; [right; by exists e|constructor].
Qed.

Lemma received_closing_sync k ns st :
  exists l, received (foldl (fun s n => closing_notify k n s) st ns) = received st ++ l /\
            Forall (fun m => m = Next k \/ exists e, m = Error e) l.
Proof.
  revert st. induction ns as [|n ns IH]; intros st; simpl.
  - exists []. by rewrite app_nil_r.
  - destruct (received_closing_notify k n st) as (l1 & H1 & HF1).
    destruct (IH (closing_notify k n st)) as (l2 & H2 & HF2).
    exists (l1 ++ l2). split; [by rewrite H2, H1, app_assoc|].
    by apply Forall_app.
Qed.

Lemma received_step st ev : exists l, received (step st ev) = received st ++ l.
Proof.
  assert (forall e st0, exists l, received (subscriber_error e st0) = received st0 ++ l)
    as Herr.
  { intros e st0. unfold subscriber_error. destruct (isStopped st0); simpl.
    - exists []. by rewrite app_nil_r.
    - by exists [Error e]. }
  destruct ev as [[o|e|]|[v|e|]|k n|]; simpl.
  - unfold openings_notify. destruct (openingsSub st); [exists []; by rewrite app_nil_r|].
    unfold openings_next. simpl.
    destruct (received_closing_sync (length (heap st)) (closingSelector o)
                (set_buffers (buffers st ++ [length (heap st)])
                   (set_heap (heap st ++ [mkBuffer [] false false (isStopped st)]) st)))
      as (l & Hl & _).
    by exists l.
  - unfold openings_notify. destruct (openingsSub st); [exists []; by rewrite app_nil_r|].
    apply (Herr e st).
  - unfold openings_notify. destruct (openingsSub st); exists []; by rewrite app_nil_r.
  - unfold source_notify.
    destruct (sourceSub st) as [[]|]; exists []; by rewrite app_nil_r.
  - unfold source_notify.
    destruct (sourceSub st) as [[]|]; [exists []; by rewrite app_nil_r|
                                       |exists []; by rewrite app_nil_r].
    apply (Herr e st).
  - unfold source_notify.
    destruct (sourceSub st) as [[]|]; [exists []; by rewrite app_nil_r|
                                       |exists []; by rewrite app_nil_r].
    destruct (isStopped st) eqn:Hs.
    + destruct (quiet_shift_all (buffers st) st Hs) as [Hs' Hr].
      unfold subscriber_complete. simpl. rewrite Hs'.
      exists []. by rewrite app_nil_r.
    + destruct (shift_all_live (buffers st) st Hs) as [Hr Hs'].
      unfold subscriber_complete. simpl. rewrite Hs'. simpl. rewrite Hr.
      exists ((Next <$> buffers st) ++ [Complete]). by rewrite app_assoc.
  - destruct (received_closing_notify k n st) as (l & Hl & _). by exists l.
  - exists []. by rewrite app_nil_r.
Qed.

Lemma emitted_step st ev r : r ∈ emitted st -> r ∈ emitted (step st ev).
Proof.
  intros Hr. destruct (received_step st ev) as [l Hl].
  unfold emitted. rewrite Hl, omap_app, elem_of_app. by left.
Qed.

Lemma heap_values_subscriber_complete st :
  heap_values (subscriber_complete st) = heap_values st.
Proof.
  unfold subscriber_complete. destruct (isStopped st); [done|].
  by rewrite heap_values_unsubscribe.
Qed.

Lemma heap_values_frame st ev :
  is_value ev = false ->
  heap_values (step st ev) = heap_values st \/
  (is_opening ev = true /\ heap_values (step st ev) = heap_values st ++ [[]]).
Proof.
  intros Hev. destruct ev as [[o|e|]|[v|e|]|k n|]; simpl in *; try done.
  - destruct (heap_values_openings_notify (Next o) st) as [H|H]; [by left|by right].
  - left. unfold openings_notify. destruct (openingsSub st); [done|].
    apply (heap_values_subscriber_error e st).
  - left. unfold openings_notify. by destruct (openingsSub st).
  - left. unfold source_notify. destruct (sourceSub st) as [[]|]; [done| |done].
    apply (heap_values_subscriber_error e st).
  - left. unfold source_notify. destruct (sourceSub st) as [[]|]; [done| |done].
    change (heap_values (subscriber_complete (shift_all (buffers st) st)) = heap_values st).
    by rewrite heap_values_subscriber_complete, heap_values_shift_all.
  - left. apply heap_values_closing_notify.
  - left. apply heap_values_unsubscribe.
Qed.

(** X1 (arrays are handed over for good).  An array that was handed to the
    consumer is not in [buffers] then or at any later moment, and its
    contents never change again: the consumer can keep the reference. *)
Theorem emitted_array_is_frozen st st' r :
  reachable st -> r ∈ emitted st -> reaches st st' ->
  r ∈ emitted st' /\ (r ∉ buffers st') /\
  heap_values st' !! r = heap_values st !! r.
Proof.
  intros Hreach Hr Hst'.
  induction Hst' as [|st' ev Hst' IH|st' Hst' IH Hsub].
  - split; [done|]. split; [by apply gone_reachable|done].
  - destruct IH as (Hem & Hnot & Hval).
    assert (reachable st') as Hreach' by (by apply (reaches_trans initial st st')).
    pose proof (Inv_reachable st' Hreach') as HI.
    split; [by apply emitted_step|].
    split; [apply gone_reachable; [by apply reaches_step|by apply emitted_step]|].
    rewrite <-Hval. destruct (is_value ev) eqn:Hev.
    + destruct ev as [n|[v|e|]|k n|]; try done. simpl.
      unfold source_notify. destruct (sourceSub st') as [[]|]; [done| |done].
      rewrite push_all_lookup by apply sorted_lt_NoDup, HI.
      rewrite decide_False by done. by destruct (heap_values st' !! r).
    + destruct (heap_values_frame st' ev Hev) as [-> | [_ ->]]; [done|].
      apply lookup_app_l. unfold heap_values. rewrite length_fmap.
      by apply emitted_allocated.
  - done.
Qed.

Lemma heap_values_run_frame st evs :
  Forall (fun ev => is_value ev = false) evs ->
  exists l, heap_values (run st evs) = heap_values st ++ l /\
            Forall (fun vs => vs = []) l.
Proof.
  intros Hevs. revert st. unfold run.
  induction Hevs as [|ev evs Hev _ IH]; intros st; simpl.
  - exists []. by rewrite app_nil_r.
  - destruct (IH (step st ev)) as (l & Hl & HF).
    destruct (heap_values_frame st ev Hev) as [H | [_ H]]; rewrite H in Hl.
    + by exists l.
    + exists ([] :: l). split; [by rewrite Hl, <-app_assoc|]. by constructor.
Qed.

(** X2 (only values of the main source fill arrays).  Whatever else
    happens (openings, closings, errors, completions, unsubscribing), the
    arrays that exist keep their contents, and the arrays that are created
    are empty. *)
Theorem contents_change_only_by_values st evs :
  Forall (fun ev => is_value ev = false) evs ->
  (forall r, r < length (heap st) ->
     heap_values (run st evs) !! r = heap_values st !! r) /\
  (forall r vs, length (heap st) <= r ->
     heap_values (run st evs) !! r = Some vs -> vs = []).
Proof.
  intros Hevs. destruct (heap_values_run_frame st evs Hevs) as (l & -> & HF).
  assert (length (heap_values st) = length (heap st)) as Hlen
    by (unfold heap_values; apply length_fmap).
  split.
  - intros r Hr. apply lookup_app_l. by rewrite Hlen.
  - intros r vs Hr Hvs. rewrite lookup_app_r in Hvs by (by rewrite Hlen).
    rewrite Forall_lookup in HF. by apply (HF _ _ Hvs).
Qed.

(** X3 (a closing notifier that fires inside its [subscribe]).  While an
    opening value is handled, the only array that can be handed to the
    consumer is the new one, and it is empty; anything else the consumer
    receives then is an error. *)
Theorem sync_closing_emits_new_empty openValue st :
  let k := length (heap st) in
  let st' := openings_next openValue st in
  heap_values st' !! k = Some [] /\
  exists l, received st' = received st ++ l /\
            Forall (fun m => m = Next k \/ exists e, m = Error e) l.
Proof.
  simpl. split.
  - rewrite heap_values_openings_next.
    assert (length (heap st) = length (heap_values st)) as ->
      by (unfold heap_values; by rewrite length_fmap).
    apply lookup_snoc_length.
  - unfold openings_next. simpl.
    set (st1 := set_buffers _ _).
    destruct (received_closing_sync (length (heap st)) (closingSelector openValue) st1)
      as (l & Hl & HF).
    by exists l.
Qed.

(** X4 (the live-buffer array).  [buffers] never holds an array twice, it
    lists the arrays in the order of their creation, and it only refers to
    arrays that were allocated. *)
Theorem buffers_are_distinct_and_ordered st :
  reachable st ->
  NoDup (buffers st) /\
  StronglySorted lt (buffers st) /\
  (forall r, r ∈ buffers st -> exists vs, heap_values st !! r = Some vs).
Proof.
  intros HI%Inv_reachable.
  split; [apply sorted_lt_NoDup, HI|]. split; [apply HI|].
  intros r Hr. pose proof (inv_bound _ _ HI) as Hb.
  rewrite Forall_forall in Hb. specialize (Hb r Hr). simpl in Hb.
  apply lookup_lt_is_Some_2. unfold heap_values. by rewrite length_fmap.
Qed.

Lemma close_all_closed (h : list Buffer) :
  Forall (fun b => innerClosed b = true) h -> close_inner <$> h = h.
Proof.
  induction 1 as [|b h Hb _ IH]; csimpl; [done|].
  rewrite IH. f_equal. destruct b as [vs tc ch ic]. simpl in *. by subst.
Qed.

(** X5 (after the end).  Once [subscriber] is stopped, by an error, by the
    completion of the main source or by the consumer unsubscribing, every
    subscription the operator made is closed, and no event changes anything
    any more: in particular no value is collected and no array created. *)
Theorem terminated_is_inert st :
  reachable st -> isStopped st = true ->
  (openingsSub st = true /\ sourceSub st <> Some false /\
   Forall (fun b => innerClosed b = true) (heap st)) /\
  (forall ev, step st ev = st).
Proof.
  intros HI%Inv_reachable Hs.
  destruct (inv_stopped _ _ HI Hs) as (Hop & Hsrc & Hall).
  split; [done|]. intros [n|n|k n|]; simpl.
  - unfold openings_notify. by rewrite Hop.
  - unfold source_notify. by destruct (sourceSub st) as [[]|].
  - apply closing_notify_closed. intros b Hb.
    rewrite Forall_lookup in Hall. by apply (Hall k).
  - unfold unsubscribe. rewrite close_all_closed by done.
    destruct st as [h bs stop rec op src]. simpl in *. subst.
    by destruct src as [[]|].
Qed.

Lemma length_heap_values st : length (heap_values st) = length (heap st).
Proof. unfold heap_values. apply length_fmap. Qed.

Lemma openingsSub_subscriber_error e st :
  openingsSub st = true -> openingsSub (subscriber_error e st) = true.
Proof. intros Hop. unfold subscriber_error. by destruct (isStopped st). Qed.

Lemma length_push_loop value bs (h : list Buffer) :
  length (foldl (fun h r => alter (push value) r h) h bs) = length h.
Proof.
  revert h. induction bs as [|a bs IH]; intros h; simpl; [done|].
  by rewrite IH, length_alter.
Qed.

Lemma set_openingsSub_id st : openingsSub st = true -> set_openingsSub true st = st.
Proof. intros Hop. destruct st. simpl in *. by subst. Qed.

Lemma buffers_source_complete st r :
  r ∈ buffers (close_source (subscriber_complete (shift_all (buffers st) st))) ->
  r ∈ buffers st.
Proof.
  assert (buffers (subscriber_complete (shift_all (buffers st) st)) = []) as Hb.
  { unfold subscriber_complete.
    destruct (isStopped (shift_all (buffers st) st)); simpl;
      by apply buffers_shift_all. }
  simpl. rewrite Hb. by intros ?%elem_of_nil.
Qed.

Lemma closed_openings_step st ev :
  openingsSub st = true ->
  openingsSub (step st ev) = true /\
  length (heap (step st ev)) = length (heap st) /\
  (forall r, r ∈ buffers (step st ev) -> r ∈ buffers st).
Proof.
  intros Hop.
  assert (step st ev = st \/ from_openings ev = false) as [->|Hev].
  { destruct ev; simpl; [left|by right..].
    unfold openings_notify. by rewrite Hop. }
  { done. }
  split; [|split].
  - rewrite <-(set_openingsSub_id st Hop).
    destruct ev as [n|n|k n|]; simpl; [done|..].
    + by rewrite source_notify_set_openingsSub.
    + by rewrite closing_notify_set_openingsSub.
    + done.
  - destruct (is_value ev) eqn:Hval.
    + destruct ev as [n|[v|e|]|k n|]; try done. simpl.
      unfold source_notify. destruct (sourceSub st) as [[]|]; [done| |done].
      apply length_push_loop.
    + rewrite <-!length_heap_values.
      destruct (heap_values_frame st ev Hval) as [-> | [Hopen _]]; [done|].
      by destruct ev as [[]| | |].
  - intros r. destruct ev as [n|[v|e|]|k n|]; simpl; [done|..].
    + unfold source_notify. by destruct (sourceSub st) as [[]|].
    + unfold source_notify. destruct (sourceSub st) as [[]|]; [done| |done].
      simpl. by rewrite buffers_subscriber_error.
    + unfold source_notify. destruct (sourceSub st) as [[]|]; [done| |done].
      apply buffers_source_complete.
    + destruct (buffers_closing_notify k n st) as [-> | ->]; [done|].
      apply elem_of_arrRemove_1.
    + done.
Qed.

(** X6 (no opening after the openings notifier is done).  Once the
    openings subscriber is closed it stays closed: no array is ever created
    again, and [buffers] only loses elements. *)
Theorem closed_openings_open_nothing st st' :
  openingsSub st = true -> reaches st st' ->
  openingsSub st' = true /\
  length (heap st') = length (heap st) /\
  (forall r, r ∈ buffers st' -> r ∈ buffers st).
Proof.
  intros Hop Hst'. induction Hst' as [|st' ev Hst' IH|st' Hst' IH Hsub].
  - done.
  - destruct IH as (Hop' & Hlen & Hbuf).
    destruct (closed_openings_step st' ev Hop') as (H1 & H2 & H3).
    split; [done|]. split; [congruence|]. intros r Hr. by apply Hbuf, H3.
  - done.
Qed.

(** ** Further properties: no array is lost *)

Lemma isStopped_emit k st : isStopped (emit k st) = isStopped st.
Proof.
  unfold emit, subscriber_next. simpl.
  destruct (isStopped st) eqn:Hs; simpl; by rewrite ?Hs.
Qed.

Lemma length_heap_emit k st : length (heap (emit k st)) = length (heap st).
Proof. rewrite <-!length_heap_values. by rewrite heap_values_emit. Qed.

Lemma isStopped_subscriber_error e st : isStopped (subscriber_error e st) = true.
Proof. unfold subscriber_error. by destruct (isStopped st) eqn:Hs. Qed.

Lemma covered_emit k st : covered st -> covered (emit k st).
Proof.
  intros Hc Hs r Hr. rewrite isStopped_emit in Hs. rewrite length_heap_emit in Hr.
  unfold emit.
  change (r ∈ buffers (subscriber_next k (set_buffers (arrRemove (buffers st) k) st)) \/
          r ∈ emitted (subscriber_next k (set_buffers (arrRemove (buffers st) k) st))).
  rewrite emitted_subscriber_next, buffers_subscriber_next. simpl. rewrite Hs.
  rewrite elem_of_app, list_elem_of_singleton.
  destruct (decide (r = k)) as [->|Hne]; [tauto|].
  destruct (Hc Hs r Hr) as [Hin|Hin]; [|tauto].
  left. by apply elem_of_arrRemove_ne.
Qed.

Lemma covered_closing_notify k n st :
  covered st -> covered (closing_notify k n st).
Proof.
  intros Hc. unfold closing_notify.
  destruct (heap st !! k) as [b|]; [|done].
  destruct (innerClosed b); [done|].
  destruct n as [x|e|].
  - by apply covered_emit.
  - intros Hs. simpl in Hs. by rewrite isStopped_subscriber_error in Hs.
  - intros Hs r Hr. simpl in *. rewrite length_alter in Hr.
    by apply (covered_emit k st Hc).
Qed.

Lemma covered_closing_sync k ns st :
  covered st -> covered (foldl (fun s n => closing_notify k n s) st ns).
Proof.
  revert st. induction ns as [|n ns IH]; intros st Hc; simpl; [done|].
  by apply IH, covered_closing_notify.
Qed.

Lemma covered_openings_next openValue st :
  covered st -> covered (openings_next openValue st).
Proof.
  intros Hc. unfold openings_next.
  set (st1 := set_buffers _ _).
  assert (covered st1) as Hc1.
  { intros Hs r Hr. simpl in *. rewrite length_app in Hr. simpl in Hr.
    rewrite elem_of_app, list_elem_of_singleton.
    destruct (decide (r = length (heap st))) as [->|Hne]; [tauto|].
    destruct (Hc Hs r) as [?|?]; [lia|tauto..]. }
  pose proof (covered_closing_sync (length (heap st)) (closingSelector openValue)
                st1 Hc1) as Hc2.
  intros Hs r Hr. simpl in *. rewrite length_alter in Hr. by apply Hc2.
Qed.

Lemma covered_step st ev : covered st -> covered (step st ev).
Proof.
  intros Hc. destruct ev as [[o|e|]|[v|e|]|k n|]; simpl.
  - unfold openings_notify. destruct (openingsSub st); [done|].
    by apply covered_openings_next.
  - unfold openings_notify. destruct (openingsSub st); [done|].
    intros Hs. simpl in Hs. by rewrite isStopped_subscriber_error in Hs.
  - unfold openings_notify. by destruct (openingsSub st).
  - unfold source_notify. destruct (sourceSub st) as [[]|]; [done| |done].
    intros Hs r Hr. simpl in *. rewrite length_push_loop in Hr. by apply Hc.
  - unfold source_notify. destruct (sourceSub st) as [[]|]; [done| |done].
    intros Hs. simpl in Hs. by rewrite isStopped_subscriber_error in Hs.
  - unfold source_notify. destruct (sourceSub st) as [[]|]; [done| |done].
    intros Hs. simpl in Hs. unfold subscriber_complete in Hs.
    destruct (isStopped (shift_all (buffers st) st)) eqn:Hs'; simpl in Hs; congruence.
  - by apply covered_closing_notify.
  - by intros Hs.
Qed.

Lemma covered_reachable st : reachable st -> covered st.
Proof.
  induction 1 as [|st' ev Hst' IH|st' Hst' IH Hsub].
  - intros _ r Hr. simpl in Hr. lia.
  - by apply covered_step.
  - done.
Qed.

(** X7 (no array is lost).  While the operator runs, every array it has
    allocated is still in [buffers] or was handed to the consumer; so when
    the main source completes, the consumer has been handed every array
    that was ever opened. *)
Theorem every_buffer_is_delivered st :
  reachable st ->
  (isStopped st = false ->
   forall r, r < length (heap st) -> r ∈ buffers st \/ r ∈ emitted st) /\
  (sourceSub st = Some false ->
   forall r, r < length (heap st) -> r ∈ emitted (step st (EvSource Complete))).
Proof.
  intros Hreach. pose proof (covered_reachable st Hreach) as Hc.
  split; [exact Hc|]. intros Hsrc r Hr.
  pose proof (live_source_not_stopped st (Inv_reachable st Hreach) Hsrc) as Hlive.
  simpl. unfold source_notify. rewrite Hsrc.
  destruct (shift_all_live (buffers st) st Hlive) as [Hrec Hs].
  unfold subscriber_complete. rewrite Hs. unfold emitted. simpl.
  rewrite Hrec, !omap_app, emitted_nexts, !elem_of_app.
  destruct (Hc Hlive r Hr) as [?|?]; tauto.
Qed.

(** ** Further properties: buffers and closing subscriptions *)

Lemma live_at_alter (f : Buffer -> Buffer) k k' h :
  k <> k' -> live_at (alter f k h) k' <-> live_at h k'.
Proof. intros Hne. unfold live_at. by rewrite list_lookup_alter_ne. Qed.

Lemma heap_emit k st :
  heap (emit k st) = alter closingSubscription_unsubscribe k (heap st).
Proof. unfold emit. simpl. by rewrite heap_subscriber_next. Qed.

Lemma buffers_emit k st : buffers (emit k st) = arrRemove (buffers st) k.
Proof. unfold emit. simpl. by rewrite buffers_subscriber_next. Qed.

Lemma not_elem_of_arrRemove bs k : NoDup bs -> k ∉ arrRemove bs k.
Proof. intros Hnd. rewrite elem_of_arrRemove by done. tauto. Qed.

Lemma Tracked_emit p k st :
  NoDup (buffers st) ->
  (Some k <> p -> forall b, heap st !! k = Some b -> token_ok b) ->
  Tracked p st -> Tracked p (emit k st).
Proof.
  intros Hnd Htok [Hlive Hmem Hpend]. constructor.
  - intros k' Hp. rewrite heap_emit, buffers_emit.
    destruct (decide (k = k')) as [<-|Hne].
    + intros (b' & Hb' & Hin'). exfalso.
      rewrite list_lookup_alter_eq in Hb'.
      destruct (heap st !! k) as [b|] eqn:Hb; simplify_eq/=.
      pose proof (token_ok_unsubscribe b (Htok Hp b eq_refl)) as Hok.
      destruct (Hok Hin') as [Hc _].
      rewrite tokClosed_unsubscribe in Hc. done.
    + rewrite live_at_alter by done. intros Hl.
      apply elem_of_arrRemove_ne; [by apply Hlive|done].
  - rewrite isStopped_emit, heap_emit, buffers_emit. intros Hs k' Hp Hin.
    apply elem_of_arrRemove in Hin as [Hin Hne]; [|done].
    rewrite live_at_alter by done. by apply Hmem.
  - intros k' b' -> Hb'. rewrite buffers_emit. rewrite heap_emit in Hb'.
    destruct (decide (k = k')) as [<-|Hne].
    + split; [intros Hin; by apply not_elem_of_arrRemove in Hin|].
      intros _. left. rewrite list_lookup_alter_eq in Hb'.
      destruct (heap st !! k) as [b|]; simplify_eq/=.
      apply tokClosed_unsubscribe.
    + rewrite list_lookup_alter_ne in Hb' by done.
      rewrite isStopped_emit.
      destruct (Hpend k' b' eq_refl Hb') as [H1 H2]. split.
      * intros Hin%elem_of_arrRemove_1. by apply H1.
      * intros Hnot. apply H2. intros Hin. apply Hnot.
        apply elem_of_arrRemove_ne; [done|congruence].
Qed.

Lemma Tracked_close p k st :
  k ∉ buffers st ->
  Tracked p st -> Tracked p (set_heap (alter close_inner k (heap st)) st).
Proof.
  intros Hk [Hlive Hmem Hpend]. constructor; simpl.
  - intros k' Hp. destruct (decide (k = k')) as [<-|Hne].
    + intros (b' & Hb' & Hin'). rewrite list_lookup_alter_eq in Hb'.
      destruct (heap st !! k); simplify_eq/=.
    + rewrite live_at_alter by done. by apply Hlive.
  - intros Hs k' Hp Hin. destruct (decide (k = k')) as [<-|Hne]; [done|].
    rewrite live_at_alter by done. by apply Hmem.
  - intros k' b' -> Hb'. destruct (decide (k = k')) as [<-|Hne].
    + split; [done|]. intros _. right.
      rewrite list_lookup_alter_eq in Hb'.
      destruct (heap st !! k); simplify_eq/=. done.
    + rewrite list_lookup_alter_ne in Hb' by done. by apply Hpend.
Qed.

Lemma Tracked_terminated p st :
  Tracked p st -> Tracked p (unsubscribe st).
Proof.
  intros [Hlive Hmem Hpend]. constructor; simpl.
  - intros k Hp (b & Hb & Hin). rewrite list_lookup_fmap in Hb.
    destruct (heap st !! k); simplify_eq/=.
  - done.
  - intros k b -> Hb. rewrite list_lookup_fmap in Hb.
    destruct (heap st !! k) as [b0|] eqn:Hb0; simplify_eq/=.
    destruct (Hpend k b0 eq_refl Hb0) as [H1 H2]. split.
    + intros Hin. split; [by apply H1|done].
    + intros _. by right.
Qed.

Lemma Tracked_subscriber_error p e st :
  Tracked p st -> Tracked p (subscriber_error e st).
Proof.
  intros HT. unfold subscriber_error. destruct (isStopped st); [done|].
  apply (Tracked_terminated p (deliver (Error e) st)).
  destruct HT as [Hlive Hmem Hpend]. by constructor.
Qed.

Lemma Tracked_closed_inner p k st :
  isStopped st = true ->
  Tracked p st -> Tracked p (set_heap (alter close_inner k (heap st)) st).
Proof.
  intros Hs [Hlive Hmem Hpend]. constructor; simpl.
  - intros k' Hp. destruct (decide (k = k')) as [<-|Hne].
    + intros (b' & Hb' & Hin'). rewrite list_lookup_alter_eq in Hb'.
      destruct (heap st !! k); simplify_eq/=.
    + rewrite live_at_alter by done. by apply Hlive.
  - intros Hs'. congruence.
  - intros k' b' -> Hb'. destruct (decide (k = k')) as [<-|Hne].
    + rewrite list_lookup_alter_eq in Hb'.
      destruct (heap st !! k) as [b0|] eqn:Hb0; simplify_eq/=.
      destruct (Hpend k b0 eq_refl Hb0) as [H1 H2]. split.
      * intros Hin. split; [by apply H1|congruence].
      * intros _. by right.
    + rewrite list_lookup_alter_ne in Hb' by done. by apply Hpend.
Qed.

Lemma Tracked_closing_notify p k n st :
  Inv p st -> Tracked p st -> Tracked p (closing_notify k n st).
Proof.
  intros HI HT. unfold closing_notify.
  destruct (heap st !! k) as [b|] eqn:Hb; [|done].
  destruct (innerClosed b) eqn:Hin; [done|].
  pose proof (sorted_lt_NoDup _ (inv_sorted _ _ HI)) as Hnd.
  assert (Some k <> p -> forall b0, heap st !! k = Some b0 -> token_ok b0) as Htok.
  { intros Hp b0 Hb0. by apply (inv_tokens _ _ HI k). }
  destruct n as [x|e|].
  - by apply Tracked_emit.
  - apply Tracked_closed_inner; [apply isStopped_subscriber_error|].
    by apply Tracked_subscriber_error.
  - apply Tracked_close; [|by apply Tracked_emit].
    rewrite buffers_emit. by apply not_elem_of_arrRemove.
Qed.

Lemma Tracked_closing_sync p k ns st :
  Inv p st -> Tracked p st ->
  Tracked p (foldl (fun s n => closing_notify k n s) st ns).
Proof.
  revert st. induction ns as [|n ns IH]; intros st HI HT; simpl; [done|].
  apply IH; [by apply Inv_closing_notify|by apply Tracked_closing_notify].
Qed.

Lemma Tracked_pushed st :
  Inv None st -> Tracked None st ->
  Tracked (Some (length (heap st)))
          (set_buffers (buffers st ++ [length (heap st)])
             (set_heap (heap st ++ [mkBuffer [] false false (isStopped st)]) st)).
Proof.
  intros HI [Hlive Hmem _]. constructor; simpl.
  - intros k Hp (b & Hb & Hin). rewrite elem_of_app. left.
    apply Hlive; [done|]. exists b. split; [|done].
    apply lookup_snoc_Some in Hb as [[_ Hb]|[-> _]]; [done|congruence].
  - intros Hs k Hp [Hin|Hin]%elem_of_app.
    + destruct (Hmem Hs k) as (b & Hb & Hin'); [done..|].
      exists b. split; [|done]. rewrite lookup_app_l; [done|].
      by apply lookup_lt_Some in Hb.
    + apply list_elem_of_singleton in Hin. congruence.
  - intros k b [= <-] Hb. rewrite lookup_snoc_length in Hb. injection Hb as <-.
    simpl. split; [done|].
    intros Hnot. exfalso. apply Hnot. rewrite elem_of_app, list_elem_of_singleton.
    by right.
Qed.

Lemma Tracked_add k st :
  Inv (Some k) st -> Tracked (Some k) st ->
  Tracked None (set_heap (alter closingSubscription_add k (heap st)) st).
Proof.
  intros HI [Hlive Hmem Hpend]. constructor; simpl.
  - intros k' _. destruct (decide (k = k')) as [<-|Hne].
    + intros (b' & Hb' & Hin'). rewrite list_lookup_alter_eq in Hb'.
      destruct (heap st !! k) as [b|] eqn:Hb; simplify_eq/=.
      destruct (decide (k ∈ buffers st)) as [|Hnot]; [done|]. exfalso.
      destruct (Hpend k b eq_refl Hb) as [_ H2].
      unfold closingSubscription_add in Hin'.
      destruct (H2 Hnot) as [Hc|Hc]; rewrite Hc in Hin'; simpl in Hin';
        [done|]. by destruct (tokClosed b); simpl in Hin'; [|congruence].
    + rewrite live_at_alter by done. apply Hlive. congruence.
  - intros Hs k' _ Hin. destruct (decide (k = k')) as [<-|Hne].
    + pose proof (inv_bound _ _ HI) as Hb. rewrite Forall_forall in Hb.
      specialize (Hb k Hin). simpl in Hb.
      destruct (lookup_lt_is_Some_2 (heap st) k Hb) as [b Hb'].
      destruct (Hpend k b eq_refl Hb') as [H1 _].
      destruct (H1 Hin) as [Hc Hi]. specialize (Hi Hs).
      exists (closingSubscription_add b). split.
      * by rewrite list_lookup_alter_eq, Hb'.
      * unfold closingSubscription_add. by rewrite Hc, Hi.
    + rewrite live_at_alter by done. apply Hmem; [done|congruence|done].
  - done.
Qed.

Lemma Tracked_openings_next openValue st :
  Inv None st -> Tracked None st -> Tracked None (openings_next openValue st).
Proof.
  intros HI HT. unfold openings_next.
  apply Tracked_add.
  - by apply Inv_closing_sync, Inv_pushed.
  - apply Tracked_closing_sync; [by apply Inv_pushed|by apply Tracked_pushed].
Qed.

Lemma innerClosed_push_loop value bs (h : list Buffer) k :
  innerClosed <$> foldl (fun h r => alter (push value) r h) h bs !! k =
  innerClosed <$> h !! k.
Proof.
  revert h. induction bs as [|a bs IH]; intros h; simpl; [done|].
  rewrite IH. destruct (decide (a = k)) as [->|Hne].
  - rewrite list_lookup_alter_eq. by destruct (h !! k).
  - by rewrite list_lookup_alter_ne.
Qed.

Lemma live_at_push_all value st k :
  live_at (heap (push_all value st)) k <-> live_at (heap st) k.
Proof.
  unfold live_at, push_all. simpl.
  pose proof (innerClosed_push_loop value (buffers st) (heap st) k) as H.
  destruct (foldl _ _ _ !! k) as [b'|], (heap st !! k) as [b|]; simplify_eq/=;
    split; intros (b0 & Hb0 & Hin); simplify_eq/=; eexists; split; eauto; congruence.
Qed.

Lemma Tracked_step st ev : Inv None st -> Tracked None st -> Tracked None (step st ev).
Proof.
  intros HI HT. destruct ev as [[o|e|]|[v|e|]|k n|]; simpl.
  - unfold openings_notify. destruct (openingsSub st); [done|].
    by apply Tracked_openings_next.
  - unfold openings_notify. destruct (openingsSub st); [done|].
    pose proof (Tracked_subscriber_error None e st HT) as [? ? ?]. by constructor.
  - unfold openings_notify. destruct (openingsSub st); [done|].
    destruct HT as [? ? ?]. by constructor.
  - unfold source_notify. destruct (sourceSub st) as [[]|]; [done| |done].
    destruct HT as [Hlive Hmem _]. constructor; [| |done].
    + intros k Hp Hl. apply live_at_push_all in Hl. by apply Hlive.
    + intros Hs k Hp Hin. apply live_at_push_all. by apply Hmem.
  - unfold source_notify. destruct (sourceSub st) as [[]|]; [done| |done].
    pose proof (Tracked_subscriber_error None e st HT) as [? ? ?]. by constructor.
  - unfold source_notify. destruct (sourceSub st) as [[]|] eqn:Hsrc; [done| |done].
    pose proof (live_source_not_stopped st HI Hsrc) as Hlive.
    destruct (shift_all_live (buffers st) st Hlive) as [_ Hs].
    unfold subscriber_complete. rewrite Hs.
    constructor; simpl; [|done..].
    intros k _ (b & Hb & Hin). rewrite list_lookup_fmap in Hb.
    destruct (heap (shift_all (buffers st) st) !! k); simplify_eq/=.
  - by apply Tracked_closing_notify.
  - by apply Tracked_terminated.
Qed.

Lemma Tracked_reachable st : reachable st -> Tracked None st.
Proof.
  induction 1 as [|st' ev Hst' IH|st' Hst' IH Hsub].
  - constructor; simpl.
    + intros k _ (b & Hb & _). by rewrite lookup_nil in Hb.
    + intros _ k _ Hin. by apply elem_of_nil in Hin.
    + done.
  - apply Tracked_step; [by apply Inv_reachable|done].
  - destruct IH as [? ? ?]. by constructor.
Qed.

(** The single notification inside [subscribe], value or completion, does
    flush: the new array is handed over, empty, it is not in [buffers]
    when the callback returns, and its closing notifier is not listened to
    afterwards. *)
Lemma closing_in_subscribe_flushes st openValue n :
  reachable st -> openingsSub st = false ->
  closingSelector openValue = [n] -> n = Complete \/ is_next n = true ->
  let k := length (heap st) in
  let st' := step st (EvOpenings (Next openValue)) in
  received st' = received st ++ [Next k] /\
  buffers st' = buffers st /\
  heap_values st' = heap_values st ++ [[]] /\
  ~ live_at (heap st') k.
Proof.
  intros Hreach Hop Hsel Hn. apply Inv_reachable in Hreach as HI.
  pose proof (live_openings_not_stopped st HI Hop) as Hs.
  assert (length (heap st) ∉ buffers st) as Hfresh.
  { intros Hin. pose proof (inv_bound _ _ HI) as Hb.
    rewrite Forall_forall in Hb. specialize (Hb _ Hin). simpl in Hb. lia. }
  intros k st'.
  set (st1 := set_buffers (buffers st ++ [k])
                (set_heap (heap st ++ [mkBuffer [] false false (isStopped st)]) st)).
  assert (received (emit k st1) = received st ++ [Next k]) as Hrec
    by (unfold emit, subscriber_next; simpl; by rewrite Hs).
  assert (buffers (emit k st1) = buffers st) as Hbuf
    by (rewrite buffers_emit; simpl; by apply arrRemove_snoc).
  assert (heap (emit k st1) = heap st ++ [mkBuffer [] true false false]) as Hheap
    by (rewrite heap_emit; simpl; unfold k; by rewrite alter_snoc, Hs).
  assert (st' = set_heap (heap st ++ [mkBuffer [] true false true]) (emit k st1))
    as ->.
  { unfold st'. simpl. unfold openings_notify. rewrite Hop.
    unfold openings_next. rewrite Hsel. cbn [foldl]. fold k. fold st1.
    unfold closing_notify.
    assert (heap st1 !! k = Some (mkBuffer [] false false (isStopped st))) as ->
      by apply lookup_snoc_length.
    cbn [innerClosed]. rewrite Hs.
    destruct n as [x|e|]; [|by destruct Hn|].
    - rewrite Hheap. unfold k. by rewrite alter_snoc.
    - change (set_heap (alter closingSubscription_add k
                          (alter close_inner k (heap (emit k st1)))) (emit k st1) =
              set_heap (heap st ++ [mkBuffer [] true false true]) (emit k st1)).
      rewrite Hheap. unfold k. by rewrite !alter_snoc. }
  split; [exact Hrec|]. split; [exact Hbuf|]. split.
  - unfold heap_values. simpl. by rewrite fmap_app.
  - simpl. intros (b & Hb & Hin). unfold k in Hb.
    rewrite lookup_snoc_length in Hb. by injection Hb as <-.
Qed.

(** X9 (buffers and closing subscriptions).  The closing notifier of an
    array is listened to only while the array is in [buffers]; and while
    the operator runs, every array in [buffers] has a closing notifier that
    is listened to.  So when a closing notifier fires after its
    [subscribe] has returned, [emit] finds the array, takes it out of
    [buffers] and hands it over. *)
Theorem buffers_are_the_live_closings st :
  reachable st ->
  (forall k, live_at (heap st) k -> k ∈ buffers st) /\
  (isStopped st = false -> forall k, k ∈ buffers st -> live_at (heap st) k) /\
  (forall k n, live_at (heap st) k -> n = Complete \/ is_next n = true ->
     let st' := step st (EvClosing k n) in
     k ∈ buffers st /\ (k ∉ buffers st') /\
     received st' = received st ++ [Next k] /\
     ~ live_at (heap st') k).
Proof.
  intros Hreach. pose proof (Tracked_reachable st Hreach) as [Hlive Hmem _].
  pose proof (Inv_reachable st Hreach) as HI.
  split; [intros k; by apply Hlive|]. split; [intros Hs k; by apply Hmem|].
  intros k n (b & Hb & Hin) Hn. simpl.
  rewrite (closing_notify_flush k n b) by tauto.
  split; [apply Hlive; [done|by exists b]|].
  split; [rewrite buffers_emit; apply not_elem_of_arrRemove, sorted_lt_NoDup, HI|].
  split.
  - unfold emit, subscriber_next. simpl.
    by rewrite (live_closing_not_stopped _ st k b HI Hb Hin).
  - intros (b' & Hb' & Hin').
    destruct (emit_closes None k b st HI) as (b'' & Hb'' & Hin''); [done..|].
    congruence.
Qed.

(** ** Further properties: one window *)

Lemma openings_next_silent openValue st :
  closingSelector openValue = [] -> isStopped st = false ->
  openings_next openValue st =
  set_buffers (buffers st ++ [length (heap st)])
    (set_heap (heap st ++ [mkBuffer [] false true false]) st).
Proof.
  intros Hsel Hs. unfold openings_next. rewrite Hsel. simpl.
  by rewrite alter_snoc, Hs.
Qed.

Lemma source_sync_frame vs st :
  sourceSub st = Some false ->
  let st' := foldl (fun s n => source_notify n s) st (Next <$> vs) in
  received st' = received st /\
  (forall k, live_at (heap st') k <-> live_at (heap st) k).
Proof.
  revert st. induction vs as [|v vs IH]; intros st Hsrc; [done|].
  rewrite fmap_cons. cbn [foldl]. cbv zeta.
  assert (source_notify (Next v) st = push_all v st) as ->
    by (unfold source_notify; by rewrite Hsrc).
  destruct (IH (push_all v st) Hsrc) as [Hrec Hlive].
  split; [exact Hrec|]. intros k. rewrite Hlive. apply live_at_push_all.
Qed.

Lemma run_values st (vs : list T) :
  run st ((fun v => EvSource (Next v)) <$> vs) =
  foldl (fun s n => source_notify n s) st (Next <$> vs).
Proof. unfold run. by rewrite !foldl_fmap. Qed.

(** X10 (one window).  An opening value whose closing notifier stays
    silent inside [subscribe], then the values [vs] of the main source,
    then a value or the completion of that closing notifier: the consumer
    is handed one array, the new one, and it holds exactly [vs], in order.
    The arrays that were open before are still open and have collected
    [vs] as well. *)
Theorem window_is_collected st openValue vs n :
  reachable st -> openingsSub st = false -> sourceSub st = Some false ->
  closingSelector openValue = [] ->
  n = Complete \/ is_next n = true ->
  let k := length (heap st) in
  let st' := run st (EvOpenings (Next openValue)
                       :: ((fun v => EvSource (Next v)) <$> vs)
                       ++ [EvClosing k n]) in
  received st' = received st ++ [Next k] /\
  heap_values st' !! k = Some vs /\
  buffers st' = buffers st /\
  (forall r, r ∈ buffers st ->
     heap_values st' !! r = (fun l => l ++ vs) <$> heap_values st !! r).
Proof.
  intros Hreach Hop Hsrc Hsel Hn k st'.
  pose proof (Inv_reachable st Hreach) as HI.
  pose proof (live_source_not_stopped st HI Hsrc) as Hs.
  assert (k ∉ buffers st) as Hfresh.
  { intros Hin. pose proof (inv_bound _ _ HI) as Hb.
    rewrite Forall_forall in Hb. specialize (Hb _ Hin). unfold k in Hb. lia. }
  set (st1 := step st (EvOpenings (Next openValue))).
  assert (st1 = set_buffers (buffers st ++ [k])
                  (set_heap (heap st ++ [mkBuffer [] false true false]) st)) as Hst1.
  { unfold st1. simpl. unfold openings_notify. rewrite Hop.
    by apply openings_next_silent. }
  assert (reachable st1) as Hreach1 by (by apply reaches_step).
  set (st2 := run st1 ((fun v => EvSource (Next v)) <$> vs)).
  assert (reachable st2) as Hreach2
    by (apply (reaches_trans initial st1 st2); [done|apply reaches_run]).
  assert (st' = step st2 (EvClosing k n)) as ->.
  { unfold st', st2, st1, run. simpl. by rewrite foldl_app. }
  assert (sourceSub st1 = Some false) as Hsrc1 by (by rewrite Hst1).
  assert (NoDup (buffers st1)) as Hnd1
    by apply sorted_lt_NoDup, (Inv_reachable st1 Hreach1).
  destruct (source_sync_values vs st1 Hnd1 Hsrc1) as (Hb2 & Hs2 & Hv2).
  destruct (source_sync_frame vs st1 Hsrc1) as (Hr2 & Hl2).
  rewrite <-run_values in Hb2, Hs2, Hv2, Hr2, Hl2. fold st2 in Hb2, Hs2, Hv2, Hr2, Hl2.
  assert (live_at (heap st2) k) as (b & Hb & Hin).
  { apply Hl2. rewrite Hst1. simpl. eexists. split; [apply lookup_snoc_length|done]. }
  simpl. rewrite (closing_notify_flush k n b) by (try apply Inv_reachable; tauto).
  assert (heap_values st1 = heap_values st ++ [[]]) as Hhv1.
  { rewrite Hst1. unfold heap_values. simpl. by rewrite fmap_app. }
  split; [|split; [|split]].
  - unfold emit, subscriber_next. simpl. rewrite Hs2, Hst1. simpl. rewrite Hs.
    simpl. by rewrite Hr2, Hst1.
  - rewrite heap_values_emit, Hv2.
    + rewrite Hhv1. unfold k. rewrite <-length_heap_values, lookup_snoc_length. done.
    + rewrite Hst1. simpl. rewrite elem_of_app, list_elem_of_singleton. by right.
  - rewrite buffers_emit, Hb2, Hst1. simpl. by apply arrRemove_snoc.
  - intros r Hr. rewrite heap_values_emit, Hv2.
    + rewrite Hhv1, lookup_app_l; [done|].
      rewrite length_heap_values. pose proof (inv_bound _ _ HI) as Hbd.
      rewrite Forall_forall in Hbd. by apply Hbd.
    + rewrite Hst1. simpl. rewrite elem_of_app. by left.
Qed.

End BufferToggle.

(** * Concrete runs *)

(** C2 (single flush) does not hold of the code.  Take [openings = of(1)]
    and the closing notifier [of(0)], which delivers a value and its
    completion inside [subscribe]: [emit] runs for the value, line 79 finds
    [closingSubscription] still without a child, and [emit] runs again for
    the completion.  The consumer is handed the array with identity 0
    twice. *)
Lemma sync_closing_emits_twice :
  received (bufferToggle sampleSelector [Next 1; Complete] [Next 10; Complete])
    = [Next 0; Next 0; Complete] /\
  heap_values (bufferToggle sampleSelector [Next 1; Complete] [Next 10; Complete])
    = [[]].
Proof. split; reflexivity. Qed.

(** C5 (closing completion = closing emission) does not hold of the code.
    The closing notifier [EMPTY], which completes inside [subscribe] without
    a value, makes the operator hand the new array over once.  The closing
    notifier [of(0)], which delivers its one value and then completes inside
    [subscribe], makes it hand the array over twice: after the value, line
    79 finds [closingSubscription] without a child, so the notifier is not
    ignored and its completion runs [emit] again. *)
Lemma sync_value_flushes_twice_completion_once :
  received (bufferToggle sampleSelector [Next 2; Complete] [Next 10; Complete])
    = [Next 0; Complete] /\
  received (bufferToggle sampleSelector [Next 1; Complete] [Next 10; Complete])
    = [Next 0; Next 0; Complete] /\
  sampleSelector 2 = [Complete] /\ sampleSelector 1 = [Next 0; Complete].
Proof. repeat split; reflexivity. Qed.

(** The same notifications delivered after [subscribe] has returned: the
    value tears the closing subscriber down and the completion is ignored. *)
Lemma async_closing_emits_once :
  received (run sampleSelector (bufferToggle sampleSelector [Next 0] [Next 10])
              [EvClosing 0 (Next 0); EvClosing 0 Complete; EvSource Complete])
    = [Next 0; Complete].
Proof. reflexivity. Qed.

(** Two sources failing in one synchronous chain: the closing notifier of
    opening 4 fails inside its [subscribe], then the openings notifier and
    the main source fail.  Only the first error is delivered. *)
Lemma chained_errors_first_wins :
  received (bufferToggle (T:=nat) sampleSelector [Next 4; Error 1] [Error 2])
    = [Error 7].
Proof. reflexivity. Qed.

(** Two buffers are open and hold the value 4; the value 5 arrives. *)
Lemma source_value_fans_out_witness :
  reachable sampleSelector (bufferToggle sampleSelector [Next 0; Next 0] [Next 4]) /\
  sourceSub (bufferToggle sampleSelector [Next 0; Next 0] [Next 4]) = Some false /\
  heap_values (step sampleSelector
                 (bufferToggle sampleSelector [Next 0; Next 0] [Next 4])
                 (EvSource (Next 5))) !! 1 = Some [4; 5].
Proof.
  split; [apply subscribed_reachable|].
  split; [reflexivity|].
  destruct (source_value_fans_out sampleSelector
              (bufferToggle sampleSelector [Next 0; Next 0] [Next 4]) 5
              (subscribed_reachable sampleSelector _ _) eq_refl)
    as (_ & _ & H & _).
  exact (H 1).
Defined.

(** The main source completes with two buffers open, and in another run
    without any opening value. *)
Lemma source_complete_flushes_fifo_witness :
  (reachable sampleSelector (bufferToggle sampleSelector [Next 0; Next 0] [Next 4]) /\
   sourceSub (bufferToggle sampleSelector [Next 0; Next 0] [Next 4]) = Some false /\
   received (step sampleSelector
               (bufferToggle sampleSelector [Next 0; Next 0] [Next 4])
               (EvSource Complete)) = [Next 0; Next 1; Complete]) /\
  (Forall (fun n => is_next n = false) [Complete (E:=nat) (A:=nat)] /\
   Forall (fun ev => is_opening ev = false)
          [EvSource (O:=nat) (X:=nat) (E:=nat) (Next 3)] /\
   received (step sampleSelector
               (run sampleSelector (bufferToggle sampleSelector [Complete] [])
                  [EvSource (Next 3)])
               (EvSource Complete)) = [Complete]).
Proof.
  split.
  - split; [apply subscribed_reachable|].
    split; [reflexivity|].
    destruct (proj1 (source_complete_flushes_fifo sampleSelector)
                (bufferToggle sampleSelector [Next 0; Next 0] [Next 4])
                (subscribed_reachable sampleSelector _ _) eq_refl) as (H & _).
    exact H.
  - assert (Forall (fun n => is_next n = false) [Complete (E:=nat) (A:=nat)]) as H1
      by (repeat constructor).
    assert (Forall (fun ev => is_opening ev = false)
              [EvSource (O:=nat) (X:=nat) (E:=nat) (Next 3)]) as H2
      by (repeat constructor).
    split; [exact H1|]. split; [exact H2|].
    destruct (proj2 (source_complete_flushes_fifo sampleSelector)
                [Complete] [] [EvSource (Next 3)] H1 H2) as (_ & H).
    exact (H eq_refl).
Defined.

(** The closing notifier of the second buffer fails; the first one and the
    main source go on delivering. *)
Lemma error_is_terminal_witness :
  reachable sampleSelector (bufferToggle sampleSelector [Next 0; Next 0] [Next 4]) /\
  live_error sampleSelector (bufferToggle sampleSelector [Next 0; Next 0] [Next 4])
    (EvClosing 1 (Error 9)) = Some 9 /\
  received (run sampleSelector
              (step sampleSelector
                 (bufferToggle sampleSelector [Next 0; Next 0] [Next 4])
                 (EvClosing 1 (Error 9)))
              [EvClosing 0 (Next 0); EvSource Complete]) = [Error 9].
Proof.
  split; [apply subscribed_reachable|].
  split; [reflexivity|].
  destruct (error_is_terminal sampleSelector
              (bufferToggle sampleSelector [Next 0; Next 0] [Next 4])
              (EvClosing 1 (Error 9)) 9
              (subscribed_reachable sampleSelector _ _) eq_refl)
    as (_ & _ & H).
  exact (H _ (reaches_run sampleSelector _ [EvClosing 0 (Next 0); EvSource Complete])).
Defined.

(** After the chain of errors above, a completion of the main source and
    an opening value arrive. *)
Lemma terminal_first_wins_witness :
  reachable sampleSelector
    (bufferToggle (T:=nat) sampleSelector [Next 4; Error 1] [Error 2]) /\
  isStopped (bufferToggle (T:=nat) sampleSelector [Next 4; Error 1] [Error 2]) = true /\
  received (run sampleSelector
              (bufferToggle (T:=nat) sampleSelector [Next 4; Error 1] [Error 2])
              [EvSource Complete; EvOpenings (Next 0)]) = [Error 7].
Proof.
  split; [apply subscribed_reachable|].
  split; [reflexivity|].
  destruct (terminal_first_wins sampleSelector
              (bufferToggle (T:=nat) sampleSelector [Next 4; Error 1] [Error 2])
              (subscribed_reachable sampleSelector _ _)) as (_ & H).
  exact (H eq_refl _
           (reaches_run sampleSelector _ [EvSource Complete; EvOpenings (Next 0)])).
Defined.

(** The openings notifier completes with two buffers open, then the main
    source delivers 5. *)
Lemma openings_complete_is_swallowed_witness :
  step sampleSelector
    (step sampleSelector (bufferToggle sampleSelector [Next 0; Next 0] [Next 4])
       (EvOpenings Complete))
    (EvSource (Next 5)) =
  set_openingsSub true
    (step sampleSelector (bufferToggle sampleSelector [Next 0; Next 0] [Next 4])
       (EvSource (Next 5))).
Proof.
  destruct (openings_complete_is_swallowed sampleSelector
              (bufferToggle sampleSelector [Next 0; Next 0] [Next 4])) as (_ & _ & H).
  exact (H (EvSource (Next 5)) eq_refl).
Defined.

(** A third opening value arrives while two buffers are open. *)
Lemma opening_creates_one_buffer_witness :
  reachable sampleSelector (bufferToggle sampleSelector [Next 0; Next 0] [Next 4]) /\
  openingsSub (bufferToggle sampleSelector [Next 0; Next 0] [Next 4]) = false /\
  heap_values (step sampleSelector
                 (bufferToggle sampleSelector [Next 0; Next 0] [Next 4])
                 (EvOpenings (Next 0))) = [[4]; [4]; []] /\
  buffers (step sampleSelector
             (bufferToggle sampleSelector [Next 0; Next 0] [Next 4])
             (EvOpenings (Next 0))) = [0; 1; 2].
Proof.
  split; [apply subscribed_reachable|].
  split; [reflexivity|].
  destruct (opening_creates_one_buffer sampleSelector
              (bufferToggle sampleSelector [Next 0; Next 0] [Next 4]) 0
              (subscribed_reachable sampleSelector _ _) eq_refl)
    as (H1 & _ & _ & H4 & _).
  split; [exact H1|]. exact (proj1 (H4 eq_refl)).
Defined.

(** The consumer unsubscribes with two buffers open; the sources go on
    delivering. *)
Lemma unsubscribe_discards_witness :
  reaches sampleSelector
    (step sampleSelector (bufferToggle sampleSelector [Next 0; Next 0] [Next 4])
       EvUnsubscribe)
    (run sampleSelector
       (step sampleSelector (bufferToggle sampleSelector [Next 0; Next 0] [Next 4])
          EvUnsubscribe)
       [EvSource (Next 5); EvClosing 0 (Next 0); EvSource Complete]) /\
  received (run sampleSelector
              (step sampleSelector
                 (bufferToggle sampleSelector [Next 0; Next 0] [Next 4])
                 EvUnsubscribe)
              [EvSource (Next 5); EvClosing 0 (Next 0); EvSource Complete]) = [].
Proof.
  split; [apply reaches_run|].
  exact (proj1 (unsubscribe_discards sampleSelector
                  (bufferToggle sampleSelector [Next 0; Next 0] [Next 4]) _
                  (reaches_run sampleSelector _
                     [EvSource (Next 5); EvClosing 0 (Next 0); EvSource Complete]))).
Defined.

(** [openings = of(7, 7, 8)], a closing notifier that never delivers, and
    the main source [of(1, 2)] without its completion. *)
Lemma openings_subscribed_first_witness :
  (forall openValue : nat, (fun _ : nat => @nil (notification nat nat)) openValue = []) /\
  buffers (bufferToggle (E:=nat) (fun _ : nat => @nil (notification nat nat))
             (Next <$> [7; 7; 8]) (Next <$> [1; 2])) = [0; 1; 2] /\
  heap_values (bufferToggle (E:=nat) (fun _ : nat => @nil (notification nat nat))
                 (Next <$> [7; 7; 8]) (Next <$> [1; 2])) !! 2 = Some [1; 2].
Proof.
  destruct (openings_subscribed_first (E:=nat)
              (fun _ : nat => @nil (notification nat nat))
              (Next <$> [7; 7; 8]) [1; 2]) as (_ & H2 & H3).
  split; [reflexivity|].
  split; [exact (proj1 (H3 [7; 7; 8] eq_refl (fun _ => eq_refl)))|].
  refine (H2 2 _). vm_compute. repeat constructor.
Defined.

(** * Concrete runs for the further properties *)

(** The first of two buffers was closed and handed over holding 4; the
    main source then delivers 9 and completes. *)
Lemma emitted_array_is_frozen_witness :
  reachable sampleSelector
    (run sampleSelector (bufferToggle sampleSelector [Next 0; Next 0] [Next 4])
       [EvClosing 0 (Next 0)]) /\
  0 ∈ emitted (run sampleSelector
                 (bufferToggle sampleSelector [Next 0; Next 0] [Next 4])
                 [EvClosing 0 (Next 0)]) /\
  heap_values (run sampleSelector
                 (run sampleSelector
                    (bufferToggle sampleSelector [Next 0; Next 0] [Next 4])
                    [EvClosing 0 (Next 0)])
                 [EvSource (Next 9); EvSource Complete]) !! 0 = Some [4].
Proof.
  assert (0 ∈ emitted (run sampleSelector
                         (bufferToggle sampleSelector [Next 0; Next 0] [Next 4])
                         [EvClosing 0 (Next 0)])) as Hin
    by exact (list_elem_of_here 0 []).
  split; [exact (bufferToggle_reachable sampleSelector [Next 0; Next 0] [Next 4]
                   [EvClosing 0 (Next 0)])|].
  split; [exact Hin|].
  exact (proj2 (proj2 (emitted_array_is_frozen sampleSelector _ _ 0
           (bufferToggle_reachable sampleSelector [Next 0; Next 0] [Next 4]
              [EvClosing 0 (Next 0)])
           Hin
           (reaches_run sampleSelector _ [EvSource (Next 9); EvSource Complete])))).
Defined.

(** With two buffers holding 4: an opening, a closing, and the completion
    of the main source leave the second array as it is. *)
Lemma contents_change_only_by_values_witness :
  Forall (fun ev => is_value ev = false)
    [EvOpenings (T:=nat) (X:=nat) (E:=nat) (Next 0); EvClosing 0 (Next 1); EvSource Complete] /\
  heap_values (run sampleSelector
                 (bufferToggle sampleSelector [Next 0; Next 0] [Next 4])
                 [EvOpenings (Next 0); EvClosing 0 (Next 1); EvSource Complete])
    !! 1 = Some [4].
Proof.
  assert (Forall (fun ev => is_value ev = false)
            [EvOpenings (T:=nat) (X:=nat) (E:=nat) (Next 0); EvClosing 0 (Next 1); EvSource Complete])
    as Hevs by (repeat constructor).
  split; [exact Hevs|].
  refine (proj1 (contents_change_only_by_values sampleSelector
                   (bufferToggle sampleSelector [Next 0; Next 0] [Next 4]) _ Hevs) 1 _).
  simpl. lia.
Defined.

(** Two buffers are open. *)
Lemma buffers_are_distinct_and_ordered_witness :
  reachable sampleSelector (bufferToggle sampleSelector [Next 0; Next 0] [Next 4]) /\
  NoDup (buffers (bufferToggle sampleSelector [Next 0; Next 0] [Next 4])).
Proof.
  split; [apply subscribed_reachable|].
  exact (proj1 (buffers_are_distinct_and_ordered sampleSelector _
                  (subscribed_reachable sampleSelector [Next 0; Next 0] [Next 4]))).
Defined.

(** The consumer has unsubscribed with two buffers open; the main source
    delivers 5. *)
Lemma terminated_is_inert_witness :
  reachable sampleSelector
    (run sampleSelector (bufferToggle sampleSelector [Next 0; Next 0] [Next 4])
       [EvUnsubscribe]) /\
  isStopped (run sampleSelector (bufferToggle sampleSelector [Next 0; Next 0] [Next 4])
               [EvUnsubscribe]) = true /\
  step sampleSelector
    (run sampleSelector (bufferToggle sampleSelector [Next 0; Next 0] [Next 4])
       [EvUnsubscribe])
    (EvSource (Next 5)) =
  run sampleSelector (bufferToggle sampleSelector [Next 0; Next 0] [Next 4])
    [EvUnsubscribe].
Proof.
  split; [exact (bufferToggle_reachable sampleSelector [Next 0; Next 0] [Next 4]
                   [EvUnsubscribe])|].
  split; [reflexivity|].
  exact (proj2 (terminated_is_inert sampleSelector _
                  (bufferToggle_reachable sampleSelector [Next 0; Next 0] [Next 4]
                     [EvUnsubscribe]) eq_refl) (EvSource (Next 5))).
Defined.

(** The openings notifier has completed with two buffers open; a late
    opening value and a value of the main source arrive. *)
Lemma closed_openings_open_nothing_witness :
  openingsSub (step sampleSelector
                 (bufferToggle sampleSelector [Next 0; Next 0] [Next 4])
                 (EvOpenings Complete)) = true /\
  length (heap (run sampleSelector
                  (step sampleSelector
                     (bufferToggle sampleSelector [Next 0; Next 0] [Next 4])
                     (EvOpenings Complete))
                  [EvOpenings (Next 0); EvSource (Next 1)])) = 2.
Proof.
  split; [reflexivity|].
  exact (proj1 (proj2 (closed_openings_open_nothing sampleSelector
           (step sampleSelector (bufferToggle sampleSelector [Next 0; Next 0] [Next 4])
              (EvOpenings Complete)) _ eq_refl
           (reaches_run sampleSelector _ [EvOpenings (Next 0); EvSource (Next 1)])))).
Defined.

(** Two buffers are open when the main source completes. *)
Lemma every_buffer_is_delivered_witness :
  reachable sampleSelector (bufferToggle sampleSelector [Next 0; Next 0] [Next 4]) /\
  sourceSub (bufferToggle sampleSelector [Next 0; Next 0] [Next 4]) = Some false /\
  1 ∈ emitted (step sampleSelector
                 (bufferToggle sampleSelector [Next 0; Next 0] [Next 4])
                 (EvSource Complete)).
Proof.
  split; [apply subscribed_reachable|]. split; [reflexivity|].
  refine (proj2 (every_buffer_is_delivered sampleSelector _
                   (subscribed_reachable sampleSelector [Next 0; Next 0] [Next 4]))
            eq_refl 1 _).
  simpl. lia.
Defined.

(** Two buffers are open; the closing notifier of the second one is
    listened to. *)
Lemma buffers_are_the_live_closings_witness :
  reachable sampleSelector (bufferToggle sampleSelector [Next 0; Next 0] [Next 4]) /\
  live_at (heap (bufferToggle sampleSelector [Next 0; Next 0] [Next 4])) 1 /\
  1 ∈ buffers (bufferToggle sampleSelector [Next 0; Next 0] [Next 4]).
Proof.
  assert (live_at (heap (bufferToggle sampleSelector [Next 0; Next 0] [Next 4])) 1)
    as Hlive by (eexists; split; reflexivity).
  split; [apply subscribed_reachable|]. split; [exact Hlive|].
  exact (proj1 (buffers_are_the_live_closings sampleSelector _
                  (subscribed_reachable sampleSelector [Next 0; Next 0] [Next 4]))
           1 Hlive).
Defined.

(** With two buffers open, a third one is opened, collects 5 and 6, and is
    closed by the completion of its notifier. *)
Lemma window_is_collected_witness :
  reachable sampleSelector (bufferToggle sampleSelector [Next 0; Next 0] [Next 4]) /\
  openingsSub (bufferToggle sampleSelector [Next 0; Next 0] [Next 4]) = false /\
  sourceSub (bufferToggle sampleSelector [Next 0; Next 0] [Next 4]) = Some false /\
  sampleSelector 0 = [] /\
  heap_values (run sampleSelector
                 (bufferToggle sampleSelector [Next 0; Next 0] [Next 4])
                 [EvOpenings (Next 0); EvSource (Next 5); EvSource (Next 6);
                  EvClosing 2 Complete]) !! 2 = Some [5; 6].
Proof.
  split; [apply subscribed_reachable|].
  split; [reflexivity|]. split; [reflexivity|]. split; [reflexivity|].
  exact (proj1 (proj2 (window_is_collected sampleSelector
           (bufferToggle sampleSelector [Next 0; Next 0] [Next 4]) 0 [5; 6] Complete
           (subscribed_reachable sampleSelector [Next 0; Next 0] [Next 4])
           eq_refl eq_refl eq_refl (or_introl eq_refl)))).
Defined.
